(** * Resume_Merger: extraction and merge pipeline

    A shallow embedding of [services/parser.py], [services/merger.py],
    [models/schemas.py] and the merge endpoint of [main.py], followed by the
    properties of the merge and extraction core.

    Conventions of the embedding:
    - a Python [str] is a [string]: the texts covered are those of code
      points below 256 (ASCII and Latin-1), one character per code point;
      [str.lower], [str.strip] and the regular-expression classes are the
      Python ones on these code points, [str.title] is the one of ASCII
      text (the parser applies it to its own keywords only);
    - a Python [int] is a [Z]; a finite Python [float] is the rational it
      denotes, a [Q]: the mergers only compare floats, they never compute
      with them;
    - the scores of rapidfuzz are the exact rationals. The library rounds
      them to doubles, so that a score can fall just short of a threshold its
      exact value equals, and it raises for a cutoff outside 0..100: the
      theorems that give the result of a merger are stated for thresholds
      of that range, the others hold of whatever is returned, and none
      rests on a score that sits on the threshold, the exact scores 0 and
      100 apart;
    - a Python [dict] is an association list in insertion order;
    - a Python [set] of strings is a [gset string];
    - the [Project] objects, which the project merger updates in place, live
      in a store ([list Project.t]) and are named by their index. *)

From Stdlib Require Import ZArith QArith Ascii String.
From stdpp Require Import gmap strings list sorting.

Open Scope Z_scope.

(** ** Strings *)

Module Str.

Definition code (c : ascii) : N := N_of_ascii c.

Definition between (lo hi : N) (c : ascii) : bool :=
  ((lo <=? code c) && (code c <=? hi))%N.

Definition is_upper : ascii → bool := between 65 90.
Definition is_lower : ascii → bool := between 97 122.
Definition is_digit : ascii → bool := between 48 57.
Definition is_alpha (c : ascii) : bool := is_upper c || is_lower c.

(** [str.isspace], which is also [\s]: TAB..CR, FS..US, the space, NEL
    and the no-break space. *)
Definition is_space (c : ascii) : bool :=
  between 9 13 c || between 28 32 c || (code c =? 133)%N
  || (code c =? 160)%N.

(** [str.isalnum] above the ASCII range: the ordinal indicators, the
    superscript digits, the micro sign, the fractions and the letters of
    Latin-1. *)
Definition is_latin1_alnum (c : ascii) : bool :=
  (code c =? 170)%N || between 178 179 c || (code c =? 181)%N
  || between 185 186 c || between 188 190 c || between 192 214 c
  || between 216 246 c || between 248 255 c.

(** [\w] *)
Definition is_word (c : ascii) : bool :=
  is_alpha c || is_digit c || Ascii.eqb c "_" || is_latin1_alnum c.

(** The characters [str.lower] changes: A..Z and the capital letters of
    Latin-1, which stand 32 places before their small letters. *)
Definition has_lower (c : ascii) : bool :=
  is_upper c || between 192 214 c || between 216 222 c.

Definition lower_char (c : ascii) : ascii :=
  if has_lower c then ascii_of_N (code c + 32) else c.

Definition upper_char (c : ascii) : ascii :=
  if is_lower c then ascii_of_N (code c - 32) else c.

(** [s.lower()] *)
Fixpoint lower (s : string) : string :=
  match s with
  | EmptyString => EmptyString
  | String c s' => String (lower_char c) (lower s')
  end.

Fixpoint lstrip (s : string) : string :=
  match s with
  | EmptyString => EmptyString
  | String c s' => if is_space c then lstrip s' else s
  end.

(** [s.strip()] *)
Definition strip (s : string) : string :=
  String.rev (lstrip (String.rev (lstrip s))).

(** [s.title()] for ASCII text: the first cased letter of every run of
    letters is put in upper case, the others in lower case. *)
Fixpoint title_go (prev_cased : bool) (s : string) : string :=
  match s with
  | EmptyString => EmptyString
  | String c s' =>
      String (if is_alpha c
              then (if prev_cased then lower_char c else upper_char c)
              else c)
             (title_go (is_alpha c) s')
  end.
Definition title : string → string := title_go false.

(** [s.split(sep)] for a one-character separator. *)
Fixpoint split_go (sep : ascii) (cur : string) (s : string) : list string :=
  match s with
  | EmptyString => [String.rev cur]
  | String c s' =>
      if Ascii.eqb c sep then String.rev cur :: split_go sep EmptyString s'
      else split_go sep (String c cur) s'
  end.
Definition split (sep : ascii) (s : string) : list string :=
  split_go sep EmptyString s.

(** [c in s] for a character [c]. *)
Fixpoint mem (c : ascii) (s : string) : bool :=
  match s with
  | EmptyString => false
  | String d s' => Ascii.eqb c d || mem c s'
  end.

(** [sub in s] for a string [sub]. *)
Fixpoint contains (sub s : string) : bool :=
  String.prefix sub s ||
  match s with
  | EmptyString => false
  | String _ s' => contains sub s'
  end.

(** Truth value of a string: the empty string is false. *)
Definition truthy (s : string) : bool :=
  match s with EmptyString => false | _ => true end.

(** [o or d] for [o : Optional[str]]. *)
Definition or_else (o : option string) (d : string) : string :=
  match o with
  | Some s => if truthy s then s else d
  | None => d
  end.

(** [a < b] on strings: lexicographic on the character codes. *)
Definition ltb (a b : string) : bool := String.ltb a b.

(** [s.endswith(suffix)] *)
Definition endswith (s suffix : string) : bool :=
  String.prefix (String.rev suffix) (String.rev s).

(** [sep.join(l)] *)
Fixpoint join (sep : string) (l : list string) : string :=
  match l with
  | [] => EmptyString
  | [s] => s
  | s :: l' => s +:+ sep +:+ join sep l'
  end.

End Str.

(** ** models/schemas.py *)

Module PersonalInfo.
Record t := mk {
  name : option string;
  email : option string;
  phone : option string;
  location : option string;
  linkedin : option string;
  github : option string;
  website : option string
}.
Definition default : t := mk None None None None None None None.
End PersonalInfo.

Module Skill.
Record t := mk {
  name : string;
  category : option string;
  frequency : Z;
  confidence : Q
}.
End Skill.

Module Experience.
Record t := mk {
  title : string;
  company : string;
  location : option string;
  start_date : option string;
  end_date : option string;
  current : bool;
  description : list string;
  technologies : list string
}.
End Experience.

Module Education.
Record t := mk {
  degree : string;
  institution : string;
  location : option string;
  graduation_date : option string;
  gpa : option string
}.
End Education.

Module Project.
Record t := mk {
  name : string;
  description : string;
  technologies : list string;
  url : option string
}.
End Project.

(** A reference to a [Project] object of the store. *)
Abbreviation ref := nat (only parsing).

(** [ParsedResume] over the representation [P] of its projects: the parser
    builds fresh [Project.t] values, the merger receives references to the
    [Project] objects of the store. *)
Module ParsedResume.
Record t (P : Type) := mk {
  personal_info : PersonalInfo.t;
  summary : option string;
  skills : list Skill.t;
  experience : list Experience.t;
  education : list Education.t;
  projects : list P;
  certifications : list string;
  languages : list string
}.
Arguments mk {P}.
Arguments personal_info {P}.
Arguments summary {P}.
Arguments skills {P}.
Arguments experience {P}.
Arguments education {P}.
Arguments projects {P}.
Arguments certifications {P}.
Arguments languages {P}.
End ParsedResume.

Module MergeSettings.
Record t := mk {
  include_sections : list string;
  max_skills : Z;
  sort_experience_by : string;
  deduplicate_threshold : Z
}.
Definition default : t :=
  mk ["personal_info"; "skills"; "experience"; "education"; "projects"]
     30 "date" 85.
End MergeSettings.

Module MergeRequest.
Record t := mk {
  resumes : list (ParsedResume.t ref);
  settings : option MergeSettings.t
}.
End MergeRequest.

(** ** Python containers and builtins *)

Section Dict.
Context {V : Type}.

(** [m[k]], when [k] is a key of [m]. *)
Fixpoint dict_get (k : string) (m : list (string * V)) : option V :=
  match m with
  | [] => None
  | (k', v) :: m' => if String.eqb k k' then Some v else dict_get k m'
  end.

(** [m[k] = v]: the value of an existing key is replaced where it stands,
    a new key goes to the end. *)
Fixpoint dict_set (k : string) (v : V) (m : list (string * V))
  : list (string * V) :=
  match m with
  | [] => [(k, v)]
  | (k', v') :: m' =>
      if String.eqb k k' then (k', v) :: m' else (k', v') :: dict_set k v m'
  end.

(** In-place update of the value stored under [k]. *)
Fixpoint dict_alter (f : V → V) (k : string) (m : list (string * V))
  : list (string * V) :=
  match m with
  | [] => []
  | (k', v') :: m' =>
      if String.eqb k k' then (k', f v') :: m'
      else (k', v') :: dict_alter f k m'
  end.

Definition dict_keys (m : list (string * V)) : list string := m.*1.
Definition dict_values (m : list (string * V)) : list V := m.*2.
End Dict.

Section Sort.
Context {A : Type} (lt : A → A → bool).

Fixpoint insert_desc (x : A) (l : list A) : list A :=
  match l with
  | [] => [x]
  | y :: l' => if lt x y then y :: insert_desc x l' else x :: l
  end.

(** [l.sort(key=k, reverse=True)], where [lt x y] is [k(x) < k(y)]: the
    sort is stable, elements with equal keys keep their order. *)
Definition sort_desc (l : list A) : list A := foldr insert_desc [] l.

(** The order the sort leaves between an element and a later one. *)
Definition not_below (a b : A) : Prop := lt a b = false.
End Sort.

Definition Qltb (a b : Q) : bool := negb (Qle_bool b a).

(** [max(a, b)]: the first argument unless the second is greater. *)
Definition py_max (a b : Q) : Q := if Qltb a b then b else a.

(** [l[:n]] *)
Definition slice_to {A} (n : Z) (l : list A) : list A :=
  if 0 <=? n then take (Z.to_nat n) l
  else take (Z.to_nat (Z.of_nat (length l) + n)) l.

(** [list(set(l))]: the distinct elements of [l]. Python leaves their order
    unspecified; the order of [elements] stands for it, and the theorems
    state of such a list only what holds in every order. *)
Definition list_set (l : list string) : list string :=
  elements (list_to_set l : gset string).

(** ** rapidfuzz *)

(** The library is not part of the repository; [fuzz.ratio] and
    [process.extractOne] follow its documentation, for a [score_cutoff] in
    the range 0..100 of the scorer (outside it the library raises a
    [TypeError], which the endpoint turns into a 500). *)
Module fuzz.

(** Length of a longest common subsequence. *)
Fixpoint lcs (a b : list ascii) : nat :=
  match a with
  | [] => 0%nat
  | x :: a' =>
      (fix go (b : list ascii) : nat :=
         match b with
         | [] => 0%nat
         | y :: b' =>
             if Ascii.eqb x y then S (lcs a' b')
             else Nat.max (lcs a' b) (go b')
         end) b
  end.

(** [fuzz.ratio(s1, s2)]: the normalized Indel similarity, in 0..100:
    [100 * 2 * lcs / (len s1 + len s2)], and 100 for two empty strings.
    This is the exact value of the double the library returns; the two
    agree for equal strings (100) and for strings without a common
    character (0). *)
Definition ratio (s1 s2 : string) : Q :=
  let a := list_ascii_of_string s1 in
  let b := list_ascii_of_string s2 in
  match (length a + length b)%nat with
  | O => 100
  | S n => Z.of_nat (200 * lcs a b) # Pos.of_succ_nat n
  end.

End fuzz.

Module process.

Fixpoint extractOne_go (scorer : string → string → Q) (query : string)
    (score_cutoff : Q) (result : option (string * Q * nat)) (key : nat)
    (choices : list string) : option (string * Q * nat) :=
  match choices with
  | [] => result
  | choice :: rest =>
      let score := scorer query choice in
      let better :=
        match result with
        | None => true
        | Some (_, best, _) => Qltb best score
        end in
      extractOne_go scorer query score_cutoff
        (if Qle_bool score_cutoff score && better
         then Some (choice, score, key) else result)
        (S key) rest
  end.

(** [process.extractOne(query, choices, scorer=, score_cutoff=)]: the
    choice with the highest score among those scoring at least
    [score_cutoff], the earliest one on ties, with its score and index;
    [None] when no choice reaches the cutoff. *)
Definition extractOne (query : string) (choices : list string)
    (scorer : string → string → Q) (score_cutoff : Z)
  : option (string * Q * nat) :=
  extractOne_go scorer query (inject_Z score_cutoff) None 0%nat choices.

End process.

(** ** Exceptions *)

Inductive exn :=
| re_error (msg : string)
| AttributeError (msg : string).

Inductive result (A : Type) :=
| Return (a : A)
| Raise (e : exn).
Arguments Return {A}.
Arguments Raise {A}.

#[global] Instance result_ret : MRet result := λ A a, Return a.
#[global] Instance result_bind : MBind result :=
  λ A B f m, match m with Return a => f a | Raise e => Raise e end.

(** ** The [re] module *)

(** The patterns of the parser are written as syntax trees. The flags
    [IGNORECASE] and [DOTALL] are applied when a tree is written down
    ([ilit], [LazyAny]). *)
Module re.

Inductive regex :=
| Eps
| Class (p : ascii → bool)      (* one character of a class *)
| Dollar                         (* [$] *)
| WordBoundary                   (* [\b] *)
| Seq (a b : regex)
| Alt (a b : regex)
| Opt (a : regex)                (* [a?] *)
| Repeat (p : ascii → bool) (lo : nat) (hi : option nat)
                                 (* [p{lo,hi}], [p+] and [p{lo,}], greedy *)
| LazyAny                        (* [.*?] under DOTALL *)
| Group (a : regex).             (* the capturing group 1 *)

Definition is_anchor (r : regex) : bool :=
  match r with Dollar | WordBoundary => true | _ => false end.

(** The check of the pattern compiler that the parser's patterns can
    fail: a repetition operator after an anchor has nothing to repeat. *)
Fixpoint well_formed (r : regex) : bool :=
  match r with
  | Seq a b | Alt a b => well_formed a && well_formed b
  | Opt a => negb (is_anchor a) && well_formed a
  | Group a => well_formed a
  | _ => true
  end.

Definition compile (r : regex) : result regex :=
  if well_formed r then Return r else Raise (re_error "nothing to repeat").

(** A position of the matcher in the text: the character before it, the
    characters after it, its index and the span of group 1. *)
Record cursor := Cursor {
  prev : option ascii;
  rest : list ascii;
  idx : nat;
  span1 : option (nat * nat)
}.

Definition opt_word (o : option ascii) : bool :=
  match o with Some a => Str.is_word a | None => false end.

Fixpoint repeat_go (p : ascii → bool) (lo : nat) (hi : option nat)
    (k : cursor → option cursor) (pv : option ascii) (rs : list ascii)
    (i : nat) (g : option (nat * nat)) : option cursor :=
  let stop := match lo with O => k (Cursor pv rs i g) | S _ => None end in
  match rs with
  | a :: t =>
      if p a && negb (bool_decide (hi = Some O)) then
        match repeat_go p (Nat.pred lo) (Nat.pred <$> hi) k (Some a) t
                        (S i) g with
        | Some c => Some c
        | None => stop
        end
      else stop
  | [] => stop
  end.

Fixpoint lazy_go (k : cursor → option cursor) (pv : option ascii)
    (rs : list ascii) (i : nat) (g : option (nat * nat)) : option cursor :=
  match k (Cursor pv rs i g) with
  | Some c => Some c
  | None =>
      match rs with
      | a :: t => lazy_go k (Some a) t (S i) g
      | [] => None
      end
  end.

(** Backtracking matcher: [exec r k c] matches [r] at [c] and hands the
    position it reaches to [k]; the alternatives are tried in the order of
    the [re] module. *)
Fixpoint exec (r : regex) (k : cursor → option cursor) (c : cursor)
  : option cursor :=
  match r with
  | Eps => k c
  | Class p =>
      match rest c with
      | a :: t => if p a then k (Cursor (Some a) t (S (idx c)) (span1 c))
                  else None
      | [] => None
      end
  | Dollar =>
      match rest c with
      | [] => k c
      | [a] => if Ascii.eqb a "010" then k c else None
      | _ => None
      end
  | WordBoundary =>
      if xorb (opt_word (prev c)) (opt_word (head (rest c))) then k c
      else None
  | Seq a b => exec a (exec b k) c
  | Alt a b =>
      match exec a k c with Some c' => Some c' | None => exec b k c end
  | Opt a =>
      match exec a k c with Some c' => Some c' | None => k c end
  | Repeat p lo hi => repeat_go p lo hi k (prev c) (rest c) (idx c) (span1 c)
  | LazyAny => lazy_go k (prev c) (rest c) (idx c) (span1 c)
  | Group a =>
      exec a (λ c', k (Cursor (prev c') (rest c') (idx c')
                         (Some (idx c, idx c')))) c
  end.

Record Match := mkMatch {
  m_string : string;
  m_span : nat * nat;
  m_span1 : option (nat * nat)
}.

Definition slice (s : string) (sp : nat * nat) : string :=
  String.substring sp.1 (sp.2 - sp.1) s.

(** [m.group(0)] and [m.group(1)] *)
Definition group0 (m : Match) : string := slice (m_string m) (m_span m).
Definition group1 (m : Match) : option string :=
  slice (m_string m) <$> m_span1 m.

Fixpoint search_go (r : regex) (text : string) (pv : option ascii)
    (rs : list ascii) (i : nat) : option Match :=
  match exec r Some (Cursor pv rs i None) with
  | Some c => Some (mkMatch text (i, idx c) (span1 c))
  | None =>
      match rs with
      | a :: t => search_go r text (Some a) t (S i)
      | [] => None
      end
  end.

(** [re.search(pattern, text)]: the pattern is compiled, then the leftmost
    match is looked for. *)
Definition search (pattern : regex) (text : string)
  : result (option Match) :=
  r ← compile pattern;
  Return (search_go r text None (list_ascii_of_string text) 0%nat).

(** Pattern text without special characters. *)
Fixpoint lit (s : string) : regex :=
  match s with
  | EmptyString => Eps
  | String c EmptyString => Class (Ascii.eqb c)
  | String c s' => Seq (Class (Ascii.eqb c)) (lit s')
  end.

(** The same under [IGNORECASE]: among the code points below 256 a
    character matches those with the same lower-case form. *)
Definition ieq (c a : ascii) : bool :=
  Ascii.eqb (Str.lower_char c) (Str.lower_char a).
Fixpoint ilit (s : string) : regex :=
  match s with
  | EmptyString => Eps
  | String c EmptyString => Class (ieq c)
  | String c s' => Seq (Class (ieq c)) (ilit s')
  end.

Fixpoint seq (rs : list regex) : regex :=
  match rs with
  | [] => Eps
  | [r] => r
  | r :: rs' => Seq r (seq rs')
  end.

Fixpoint alt (rs : list regex) : regex :=
  match rs with
  | [] => Eps
  | [r] => r
  | r :: rs' => Alt r (alt rs')
  end.

End re.

(** ** services/parser.py *)

Module ResumeParser.
Import re.

Definition one_of (cs : string) (c : ascii) : bool := Str.mem c cs.

(** [[-.\s]] *)
Definition separator (c : ascii) : bool := one_of "-." c || Str.is_space c.

(** [\b[A-Za-z0-9._%+-]+@[A-Za-z0-9.-]+\.[A-Z|a-z]{2,}\b] *)
Definition email_pattern : regex :=
  seq [ WordBoundary;
        Repeat (λ c, Str.is_alpha c || Str.is_digit c || one_of "._%+-" c)
               1 None;
        Class (Ascii.eqb "@");
        Repeat (λ c, Str.is_alpha c || Str.is_digit c || one_of ".-" c)
               1 None;
        Class (Ascii.eqb ".");
        Repeat (λ c, Str.is_alpha c || Ascii.eqb c "|") 2 None;
        WordBoundary ].

(** [(\+?\d{1,3}[-.\s]?)?$$?\d{3}$$?[-.\s]?\d{3}[-.\s]?\d{4}] *)
Definition phone_pattern : regex :=
  seq [ Opt (Group (seq [ Opt (Class (Ascii.eqb "+"));
                          Repeat Str.is_digit 1 (Some 3%nat);
                          Opt (Class separator) ]));
        Dollar; Opt Dollar;
        Repeat Str.is_digit 3 (Some 3%nat);
        Dollar; Opt Dollar;
        Opt (Class separator);
        Repeat Str.is_digit 3 (Some 3%nat);
        Opt (Class separator);
        Repeat Str.is_digit 4 (Some 4%nat) ].

(** [linkedin\.com/in/[\w-]+], searched with [IGNORECASE] *)
Definition linkedin_pattern : regex :=
  seq [ ilit "linkedin.com/in/";
        Repeat (λ c, Str.is_word c || Ascii.eqb c "-") 1 None ].

(** [github\.com/[\w-]+], searched with [IGNORECASE] *)
Definition github_pattern : regex :=
  seq [ ilit "github.com/";
        Repeat (λ c, Str.is_word c || Ascii.eqb c "-") 1 None ].

Definition skill_keywords : list (string * list string) :=
  [ ("programming",
     ["python"; "javascript"; "java"; "c++"; "c#"; "ruby"; "php"; "swift";
      "kotlin"; "go"; "rust"; "typescript"]);
    ("frontend",
     ["react"; "vue"; "angular"; "html"; "css"; "tailwind"; "bootstrap";
      "sass"; "next.js"; "nuxt"]);
    ("backend",
     ["node.js"; "express"; "django"; "flask"; "fastapi"; "spring";
      "rails"; ".net"]);
    ("database",
     ["postgresql"; "mysql"; "mongodb"; "redis"; "sqlite"; "dynamodb";
      "firebase"]);
    ("cloud",
     ["aws"; "azure"; "gcp"; "vercel"; "heroku"; "docker"; "kubernetes"]);
    ("tools",
     ["git"; "jira"; "figma"; "postman"; "jenkins"; "github actions"]) ].

Definition newline : ascii := "010".

Definition _parse_personal_info (text : string) : result PersonalInfo.t :=
  let lines := Str.split newline text in
  let name := head (filter (λ l, Str.truthy l) (Str.strip <$> lines)) in
  email_match ← search email_pattern text;
  let email := group0 <$> email_match in
  phone_match ← search phone_pattern text;
  let phone := group0 <$> phone_match in
  linkedin_match ← search linkedin_pattern text;
  let linkedin := group0 <$> linkedin_match in
  github_match ← search github_pattern text;
  let github := group0 <$> github_match in
  Return (PersonalInfo.mk name email phone None linkedin github None).

(** The float [0.9]: 8106479329266893 / 2^53. *)
Definition float_0_9 : Q := 8106479329266893 # 9007199254740992.

Definition _parse_skills (text : string) : list Skill.t :=
  let text_lower := Str.lower text in
  '(category, keywords) ← skill_keywords;
  keyword ← keywords;
  if Str.contains keyword text_lower
  then [Skill.mk (Str.title keyword) (Some category) 1 float_0_9]
  else [].

(** The first field of a new entry is [title], the second [company]. *)
Definition new_experience (line : string) : Experience.t :=
  let parts := Str.split "|" line in
  Experience.mk
    (if Str.mem "|" line then Str.strip (default "" (parts !! 0%nat))
     else line)
    (if Str.mem "|" line && bool_decide (1 < length parts)%nat
     then Str.strip (default "" (parts !! 1%nat)) else "Unknown")
    None None None false [] [].

Definition append_description (exp : Experience.t) (line : string)
  : Experience.t :=
  Experience.mk (Experience.title exp) (Experience.company exp)
    (Experience.location exp) (Experience.start_date exp)
    (Experience.end_date exp) (Experience.current exp)
    (Experience.description exp ++ [line]) (Experience.technologies exp).

(** The body of the loop over the lines of the experience section, on
    the pair [(experiences, current_exp)]. *)
Definition exp_line (st : list Experience.t * option Experience.t)
    (line : string) : result (list Experience.t * option Experience.t) :=
  let line := Str.strip line in
  if negb (Str.truthy line) then Return st
  else
    year ← search (Repeat Str.is_digit 4 (Some 4%nat)) line;
    match year, st.2 with
    | Some _, Some current_exp =>
        Return (st.1 ++ [current_exp], Some (new_experience line))
    | Some _, None => Return (st.1, Some (new_experience line))
    | None, Some current_exp =>
        Return (st.1, Some (append_description current_exp line))
    | None, None => Return st
    end.

Fixpoint exp_lines (st : list Experience.t * option Experience.t)
    (lines : list string)
  : result (list Experience.t * option Experience.t) :=
  match lines with
  | [] => Return st
  | line :: lines' => st' ← exp_line st line; exp_lines st' lines'
  end.

(** The two patterns of [_parse_experience], searched with
    [IGNORECASE | DOTALL]. *)
Definition exp_patterns : list regex :=
  [ seq [ alt [ilit "experience"; ilit "work history"; ilit "employment"];
          Group LazyAny;
          alt [ilit "education"; ilit "skills"; ilit "projects"; Dollar] ];
    seq [ ilit "professional experience";
          Group LazyAny;
          alt [ilit "education"; ilit "skills"; Dollar] ] ].

Fixpoint exp_search (patterns : list regex) (text : string)
  : result (list Experience.t) :=
  match patterns with
  | [] => Return []
  | pattern :: patterns' =>
      m ← search pattern text;
      match m with
      | Some m =>
          let exp_text := default "" (group1 m) in
          st ← exp_lines ([], None) (Str.split newline exp_text);
          Return (st.1 ++ option_list st.2)
      | None => exp_search patterns' text
      end
  end.

Definition _parse_experience (text : string) : result (list Experience.t) :=
  exp_search exp_patterns text.

(** [(?:education)(.*?)(?:experience|skills|projects|$)] *)
Definition edu_pattern : regex :=
  seq [ ilit "education"; Group LazyAny;
        alt [ilit "experience"; ilit "skills"; ilit "projects"; Dollar] ].

Definition long_lines (section : string) : list string :=
  filter (λ line, Str.truthy line ∧ (10 < String.length line)%nat)
         (Str.strip <$> Str.split newline section).

Definition _parse_education (text : string) : result (list Education.t) :=
  m ← search edu_pattern text;
  match m with
  | Some m =>
      Return ((λ line, Education.mk line "Parsed from resume" None None None)
                <$> long_lines (default "" (group1 m)))
  | None => Return []
  end.

(** [(?:projects)(.*?)(?:experience|education|skills|$)] *)
Definition proj_pattern : regex :=
  seq [ ilit "projects"; Group LazyAny;
        alt [ilit "experience"; ilit "education"; ilit "skills"; Dollar] ].

Definition new_project (line : string) : Project.t :=
  let parts := Str.split "-" line in
  Project.mk
    (if Str.mem "-" line then Str.strip (default "" (parts !! 0%nat))
     else line)
    (if Str.mem "-" line then Str.strip (default "" (parts !! 1%nat))
     else line)
    [] None.

Definition _parse_projects (text : string) : result (list Project.t) :=
  m ← search proj_pattern text;
  match m with
  | Some m => Return (new_project <$> long_lines (default "" (group1 m)))
  | None => Return []
  end.

(** [parse_resume] from the point where the text of the document has
    been read. *)
Definition parse_text (text : string)
  : result (ParsedResume.t Project.t) :=
  personal_info ← _parse_personal_info text;
  let skills := _parse_skills text in
  experience ← _parse_experience text;
  education ← _parse_education text;
  projects ← _parse_projects text;
  Return (ParsedResume.mk personal_info None skills experience education
            projects [] []).

(** What [parse_resume] can raise: its own [ValueError], an exception [e]
    of the library that reads the document, or an exception of the
    extractors. *)
Inductive raised (E : Type) :=
| ValueError (msg : string)
| LibraryError (e : E)
| CoreError (e : exn).
Arguments ValueError {E}.
Arguments LibraryError {E}.
Arguments CoreError {E}.

(** The reading of the documents is left to [pdfplumber] and [docx]:
    [pdf_pages] stands for the texts [page.extract_text()] of the pages of
    a PDF file, [docx_paragraphs] for the texts of the paragraphs of a DOCX
    file; either may raise instead. *)
Section ParseResume.
Context {E : Type}.
Context (pdf_pages : string → E + list (option string)).
Context (docx_paragraphs : string → E + list string).

Definition _extract_from_pdf (file_path : string) : E + string :=
  match pdf_pages file_path with
  | inl e => inl e
  | inr pages =>
      inr (foldl (λ text page, text +:+ Str.or_else page "") "" pages)
  end.

Definition _extract_from_docx (file_path : string) : E + string :=
  match docx_paragraphs file_path with
  | inl e => inl e
  | inr paragraphs => inr (Str.join (String newline "") paragraphs)
  end.

Definition parse_resume (file_path : string)
  : raised E + ParsedResume.t Project.t :=
  let text :=
    if Str.endswith file_path ".pdf"
    then Some (_extract_from_pdf file_path)
    else if Str.endswith file_path ".docx"
    then Some (_extract_from_docx file_path)
    else None in
  match text with
  | None => inl (ValueError "Unsupported file format")
  | Some (inl e) => inl (LibraryError e)
  | Some (inr text) =>
      match parse_text text with
      | Return parsed => inr parsed
      | Raise e => inl (CoreError e)
      end
  end.
End ParseResume.

End ResumeParser.

(** ** services/merger.py *)

Module ResumeMerger.

Definition opt_truthy (o : option string) : bool :=
  match o with Some s => Str.truthy s | None => false end.

(** [if info.f and not merged.f: merged.f = info.f] *)
Definition fill (merged info : option string) : option string :=
  if opt_truthy info && negb (opt_truthy merged) then info else merged.

Definition _merge_personal_info (infos : list PersonalInfo.t)
  : PersonalInfo.t :=
  foldl (λ merged info,
           PersonalInfo.mk
             (fill (PersonalInfo.name merged) (PersonalInfo.name info))
             (fill (PersonalInfo.email merged) (PersonalInfo.email info))
             (fill (PersonalInfo.phone merged) (PersonalInfo.phone info))
             (fill (PersonalInfo.location merged)
                   (PersonalInfo.location info))
             (fill (PersonalInfo.linkedin merged)
                   (PersonalInfo.linkedin info))
             (fill (PersonalInfo.github merged) (PersonalInfo.github info))
             (fill (PersonalInfo.website merged)
                   (PersonalInfo.website info)))
        PersonalInfo.default infos.

(** The lookup of a similar key that both fuzzy mergers start with:
    [matched_key] stays [None] on an empty map and when no key reaches the
    threshold. *)
Definition find_match {V} (normalized_name : string)
    (map : list (string * V)) (threshold : Z) : option string :=
  match map with
  | [] => None
  | _ =>
      match process.extractOne normalized_name (dict_keys map)
              fuzz.ratio threshold with
      | Some (choice, _, _) => Some choice
      | None => None
      end
  end.

(** [if matched_key:] takes the branch for a key that is neither [None] nor
    the empty string. *)
Definition key_truthy (matched_key : option string) : bool :=
  opt_truthy matched_key.

(** The body of the loop of [_merge_skills]. The values of [skill_map]
    are the four-field dictionaries of the source, written as [Skill.t]. *)
Definition skill_step (threshold : Z) (skill_map : list (string * Skill.t))
    (skill : Skill.t) : list (string * Skill.t) :=
  let normalized_name := Str.strip (Str.lower (Skill.name skill)) in
  let matched_key := find_match normalized_name skill_map threshold in
  match matched_key with
  | Some key =>
      if Str.truthy key then
        dict_alter
          (λ data, Skill.mk (Skill.name data) (Skill.category data)
                     (Skill.frequency data + 1)
                     (py_max (Skill.confidence data)
                             (Skill.confidence skill)))
          key skill_map
      else
        dict_set normalized_name
          (Skill.mk (Skill.name skill) (Skill.category skill) 1
                    (Skill.confidence skill))
          skill_map
  | None =>
      dict_set normalized_name
        (Skill.mk (Skill.name skill) (Skill.category skill) 1
                  (Skill.confidence skill))
        skill_map
  end.

(** The map after the two nested loops. *)
Definition skill_map_of (skill_lists : list (list Skill.t)) (threshold : Z)
  : list (string * Skill.t) :=
  foldl (λ skill_map skills, foldl (skill_step threshold) skill_map skills)
        [] skill_lists.

(** [(s.frequency, s.confidence)] of [x] below that of [y]. *)
Definition skill_key_lt (x y : Skill.t) : bool :=
  (Skill.frequency x <? Skill.frequency y) ||
  ((Skill.frequency x =? Skill.frequency y) &&
   Qltb (Skill.confidence x) (Skill.confidence y)).

Definition _merge_skills (skill_lists : list (list Skill.t)) (threshold : Z)
  : list Skill.t :=
  let skill_map := skill_map_of skill_lists threshold in
  let merged_skills := dict_values skill_map in
  sort_desc skill_key_lt merged_skills.

Definition signature (exp : Experience.t) : string :=
  Str.lower (Experience.company exp) +:+ "_" +:+
  Str.lower (Experience.title exp) +:+ "_" +:+
  Str.or_else (Experience.start_date exp) "".

(** The body of the loop of [_merge_experience], on the pair
    [(seen_signatures, merged_experience)]. *)
Definition exp_step (st : gset string * list Experience.t)
    (exp : Experience.t) : gset string * list Experience.t :=
  let signature := signature exp in
  if decide (signature ∉ st.1)
  then ({[signature]} ∪ st.1, st.2 ++ [exp])
  else st.

Definition collect_experience (exp_lists : list (list Experience.t))
  : gset string * list Experience.t :=
  foldl (λ st experiences, foldl exp_step st experiences) (∅, []) exp_lists.

(** [(e.current, e.start_date or "0000")] *)
Definition exp_sort_key (e : Experience.t) : bool * string :=
  (Experience.current e, Str.or_else (Experience.start_date e) "0000").

(** [a < b] on pairs of a [bool] and a [str]; [False < True]. *)
Definition pair_ltb (a b : bool * string) : bool :=
  (negb a.1 && b.1) || (Bool.eqb a.1 b.1 && Str.ltb a.2 b.2).

Definition exp_key_lt (x y : Experience.t) : bool :=
  pair_ltb (exp_sort_key x) (exp_sort_key y).

Definition _merge_experience (exp_lists : list (list Experience.t))
  : list Experience.t :=
  let merged_experience := (collect_experience exp_lists).2 in
  sort_desc exp_key_lt merged_experience.

Definition edu_key (edu : Education.t) : string :=
  Str.lower (Education.institution edu) +:+ "_" +:+
  Str.lower (Education.degree edu).

Definition edu_step (st : gset string * list Education.t)
    (edu : Education.t) : gset string * list Education.t :=
  let key := edu_key edu in
  if decide (key ∉ st.1)
  then ({[key]} ∪ st.1, st.2 ++ [edu])
  else st.

Definition _merge_education (edu_lists : list (list Education.t))
  : list Education.t :=
  (foldl (λ st educations, foldl edu_step st educations) (∅, [])
         edu_lists).2.

(** The state of [_merge_projects]: the store of [Project] objects and
    [project_map], whose values are references into the store. *)
Record proj_state := ProjState {
  store : list Project.t;
  project_map : list (string * ref)
}.

(** The body of the loop of [_merge_projects] for the object [proj] at
    reference [r]. [existing] is the object the map holds under the matched
    key: the two assignments to its fields update the store. *)
Definition proj_body (threshold : Z) (st : proj_state) (r : ref)
    (proj : Project.t) : proj_state :=
  let normalized_name := Str.strip (Str.lower (Project.name proj)) in
  let matched_key := find_match normalized_name (project_map st) threshold in
  let insert :=
    ProjState (store st) (dict_set normalized_name r (project_map st)) in
  match matched_key with
  | Some key =>
      if Str.truthy key then
        match dict_get key (project_map st) with
        | Some e =>
            match store st !! e with
            | Some existing =>
                let description :=
                  if decide (Project.description proj
                             ≠ Project.description existing)
                  then Project.description existing +:+ " | "
                       +:+ Project.description proj
                  else Project.description existing in
                let technologies :=
                  list_set (Project.technologies existing
                            ++ Project.technologies proj) in
                ProjState
                  (<[e := Project.mk (Project.name existing) description
                            technologies (Project.url existing)]>
                     (store st))
                  (project_map st)
            | None => st
            end
        | None => st
        end
      else insert
  | None => insert
  end.

(** A reference that names no object of the store does not occur in a
    well-formed input; the step skips it. *)
Definition proj_step (threshold : Z) (st : proj_state) (r : ref)
  : proj_state :=
  match store st !! r with
  | Some proj => proj_body threshold st r proj
  | None => st
  end.

Definition run_projects (threshold : Z) (st : proj_state)
    (proj_lists : list (list ref)) : proj_state :=
  foldl (λ st projects, foldl (proj_step threshold) st projects)
        st proj_lists.

(** [_merge_projects] returns the store it leaves behind and
    [list(project_map.values())]. *)
Definition _merge_projects (h : list Project.t)
    (proj_lists : list (list ref)) (threshold : Z)
  : list Project.t * list ref :=
  let st := run_projects threshold (ProjState h []) proj_lists in
  (store st, dict_values (project_map st)).

(** [merge] returns the store it leaves behind and the merged resume.
    The endpoint may pass [None] for [settings]; reading an attribute of
    it then raises, before any project has been touched. *)
Definition merge (h : list Project.t) (resumes : list (ParsedResume.t ref))
    (settings : option MergeSettings.t)
  : list Project.t * result (ParsedResume.t ref) :=
  match settings with
  | None =>
      (h, Raise (AttributeError
            "'NoneType' object has no attribute 'deduplicate_threshold'"))
  | Some settings =>
      let merged_personal :=
        _merge_personal_info (ParsedResume.personal_info <$> resumes) in
      let merged_skills :=
        _merge_skills (ParsedResume.skills <$> resumes)
                      (MergeSettings.deduplicate_threshold settings) in
      let merged_experience :=
        _merge_experience (ParsedResume.experience <$> resumes) in
      let merged_education :=
        _merge_education (ParsedResume.education <$> resumes) in
      let merged :=
        _merge_projects h (ParsedResume.projects <$> resumes)
                        (MergeSettings.deduplicate_threshold settings) in
      let max_skills := MergeSettings.max_skills settings in
      let merged_skills :=
        if negb (max_skills =? 0) &&
           (max_skills <? Z.of_nat (length merged_skills))
        then slice_to max_skills merged_skills
        else merged_skills in
      (merged.1,
       Return (ParsedResume.mk merged_personal None merged_skills
                 merged_experience merged_education merged.2 [] []))
  end.

End ResumeMerger.

(** ** main.py: the merge endpoint *)

Inductive response (A : Type) :=
| Ok (body : A)
| HTTPException (status_code : Z) (detail : string).
Arguments Ok {A}.
Arguments HTTPException {A}.

Definition str_exn (e : exn) : string :=
  match e with re_error msg | AttributeError msg => msg end.

(** [merge_resumes]: the guard on the number of resumes comes before the
    call of the merger; an exception of the merger becomes a 500. *)
Definition merge_resumes (h : list Project.t) (request : MergeRequest.t)
  : list Project.t * response (ParsedResume.t ref) :=
  if (length (MergeRequest.resumes request) <? 2)%nat
  then (h, HTTPException 400 "Need at least 2 resumes to merge")
  else
    let merged :=
      ResumeMerger.merge h (MergeRequest.resumes request)
                         (MergeRequest.settings request) in
    match merged.2 with
    | Return merged_resume => (merged.1, Ok merged_resume)
    | Raise e =>
        (merged.1,
         HTTPException 500 ("Error merging resumes: " +:+ str_exn e))
    end.

(** ** Vocabulary of the properties *)

(** The entries of a list that carry the signature [s]. *)
Definition same_signature (s : string) (x : Experience.t) : Prop :=
  ResumeMerger.signature x = s.
#[global] Instance same_signature_dec s x : Decision (same_signature s x).
Proof. unfold same_signature. apply _. Defined.

(** What the signature of an entry is made of. *)
Definition exact_key (e : Experience.t) : string * string * string :=
  (Str.lower (Experience.company e), Str.lower (Experience.title e),
   Str.or_else (Experience.start_date e) "").

(** The identity of an entry in the words of the specification: the three
    fields in lower case, a missing start date as the empty string. *)
Definition spec_identity (e : Experience.t) : string * string * string :=
  (Str.lower (Experience.company e), Str.lower (Experience.title e),
   Str.lower (Str.or_else (Experience.start_date e) "")).

(** Neither the company nor the title of the entry holds the character the
    signature is joined with. *)
Definition no_underscore (e : Experience.t) : Prop :=
  Str.mem "_" (Experience.company e) = false
  ∧ Str.mem "_" (Experience.title e) = false.

(** The entries of a list that agree with [e] on what the signature is made
    of. *)
Definition same_key (e x : Experience.t) : Prop := exact_key x = exact_key e.
#[global] Instance same_key_dec e x : Decision (same_key e x).
Proof. unfold same_key. apply _. Defined.

(** The string the sort compares inside a group. *)
Definition sort_date (e : Experience.t) : string :=
  (ResumeMerger.exp_sort_key e).2.

Definition experience (title company : string) (start_date : option string)
    (current : bool) : Experience.t :=
  {| Experience.title := title; Experience.company := company;
     Experience.location := None; Experience.start_date := start_date;
     Experience.end_date := None; Experience.current := current;
     Experience.description := []; Experience.technologies := [] |}.

(** The canonical keys of the projects [_merge_projects] returns, in the
    order of its result. *)
Definition merged_keys (h : list Project.t) (proj_lists : list (list ref))
    (threshold : Z) : list string :=
  dict_keys (ResumeMerger.project_map
               (ResumeMerger.run_projects threshold
                  (ResumeMerger.ProjState h []) proj_lists)).

(** The keys of [project_map] after the scan of the references [rs]. *)
Definition keys_after (h : list Project.t) (threshold : Z) (rs : list ref)
  : list string :=
  dict_keys (ResumeMerger.project_map
               (foldl (ResumeMerger.proj_step threshold)
                      (ResumeMerger.ProjState h []) rs)).

Definition normalized (proj : Project.t) : string :=
  Str.strip (Str.lower (Project.name proj)).

(** The normalized name of the project a reference names. *)
Definition key_of (h : list Project.t) (r : ref) : option string :=
  normalized <$> h !! r.

(** The first of the references [rs] whose project has the normalized name
    [k]. *)
Definition first_named (h : list Project.t) (k : string) (rs : list ref)
  : option ref :=
  head (filter (λ r, key_of h r = Some k) rs).

(** What the loop of [_merge_projects] maintains after the scan of the
    references [rs] when no name is empty: no key is empty, no key stands
    twice, and every key holds the first scanned project of that name. *)
Definition first_seen_inv (h : list Project.t) (rs : list ref)
    (project_map : list (string * ref)) : Prop :=
  ("" ∉ dict_keys project_map)
  ∧ NoDup (dict_keys project_map)
  ∧ ∀ k r, (k, r) ∈ project_map → first_named h k rs = Some r.

Definition resume (skills : list Skill.t) (projects : list ref)
  : ParsedResume.t ref :=
  ParsedResume.mk PersonalInfo.default None skills [] [] projects [] [].

Definition skill (name : string) (confidence : Q) : Skill.t :=
  Skill.mk name (Some "general") 1 confidence.

(** Two projects that differ in the case of their name. *)
Definition portfolio_store : list Project.t :=
  [ Project.mk "Portfolio Site" "built with React" ["React"] None;
    Project.mk "portfolio site" "added dark mode" ["CSS"] None ].

(** Three projects, the second a later mention of the first. *)
Definition three_projects : list Project.t :=
  [ Project.mk "Portfolio Site" "built with React" ["React"] None;
    Project.mk "portfolio site" "added dark mode" ["CSS"] None;
    Project.mk "Chat App" "websocket chat" ["Go"] None ].

(** The canonical key of a skill mention. *)
Definition skill_key (s : Skill.t) : string :=
  Str.strip (Str.lower (Skill.name s)).

(** The key a mention contributes to: the key the deduplicator matched it
    with, or its own canonical key when there is no match. *)
Definition landing (threshold : Z) (skill_map : list (string * Skill.t))
    (s : Skill.t) : string :=
  default (skill_key s)
          (ResumeMerger.find_match (skill_key s) skill_map threshold).

(** The mentions in scanning order, each with the key it contributes to. *)
Fixpoint landings (threshold : Z) (skill_map : list (string * Skill.t))
    (skills : list Skill.t) : list (string * Skill.t) :=
  match skills with
  | [] => []
  | s :: rest =>
      (landing threshold skill_map s, s)
      :: landings threshold (ResumeMerger.skill_step threshold skill_map s)
                  rest
  end.

Definition by_key (k : string) (L : list (string * Skill.t)) : list Skill.t :=
  (filter (λ p, p.1 = k) L).*2.

(** The mentions of [skills] that contribute to the key [k]. *)
Definition contributors (threshold : Z) (skills : list Skill.t) (k : string)
  : list Skill.t :=
  by_key k (landings threshold [] skills).

(** No score between the keys of two mentions sits on the threshold, unless
    the keys are equal: the scores are the exact ones, and a rounded score
    can fall short of a threshold that the exact score equals. *)
Definition off_threshold (threshold : Z) (skills : list Skill.t) : Prop :=
  ∀ s s', s ∈ skills → s' ∈ skills →
    (fuzz.ratio (skill_key s) (skill_key s') == inject_Z threshold)%Q →
    skill_key s = skill_key s'.

(** The entry [v] aggregates the mentions [cs]: it counts them, carries the
    highest of their confidences, and the name and category of the first. *)
Definition aggregates (v : Skill.t) (cs : list Skill.t) : Prop :=
  Skill.frequency v = Z.of_nat (length cs)
  ∧ Forall (λ c, (Skill.confidence c <= Skill.confidence v)%Q) cs
  ∧ Exists (λ c, Skill.confidence c = Skill.confidence v) cs
  ∧ ∃ c0, head cs = Some c0 ∧ Skill.name v = Skill.name c0
          ∧ Skill.category v = Skill.category c0.

(** What the loop of [_merge_skills] maintains between its map and the
    mentions scanned so far, as long as no canonical key is empty. *)
Definition skill_inv (m : list (string * Skill.t))
    (L : list (string * Skill.t)) : Prop :=
  NoDup (dict_keys m)
  ∧ ("" ∉ dict_keys m)
  ∧ (∀ k, k ∈ dict_keys m ↔ k ∈ L.*1)
  ∧ (∀ k v, (k, v) ∈ m → aggregates v (by_key k L)).

(** The first entry of a list of optional strings that is neither [None]
    nor the empty string. *)
Definition first_truthy (l : list (option string)) : option string :=
  default None (head (filter (λ o, ResumeMerger.opt_truthy o) l)).

(** The sum of the frequencies of a list of skills. *)
Definition total_frequency (l : list Skill.t) : Z :=
  foldr (λ v acc, Skill.frequency v + acc) 0 l.

(** The skills [_parse_skills] reports for a text that holds every keyword
    of the taxonomy. *)
Definition all_taxonomy_skills : list Skill.t :=
  '(category, keywords) ← ResumeParser.skill_keywords;
  keyword ← keywords;
  [Skill.mk (Str.title keyword) (Some category) 1 ResumeParser.float_0_9].

(** The optional fields of [PersonalInfo]. *)
Definition info_fields : list (PersonalInfo.t → option string) :=
  [ PersonalInfo.name; PersonalInfo.email; PersonalInfo.phone;
    PersonalInfo.location; PersonalInfo.linkedin; PersonalInfo.github;
    PersonalInfo.website ].

(** What the loop of [_merge_skills] maintains for every input: the entries
    of the map are built from the mentions [S] scanned so far and do not
    count more than there are. *)
Definition skill_sound (m : list (string * Skill.t)) (S : list Skill.t)
  : Prop :=
  (∀ k v, (k, v) ∈ m →
     1 ≤ Skill.frequency v
     ∧ (∃ s, s ∈ S ∧ Skill.name v = Skill.name s
             ∧ Skill.category v = Skill.category s)
     ∧ (∃ s, s ∈ S ∧ Skill.confidence v = Skill.confidence s))
  ∧ total_frequency (dict_values m) ≤ Z.of_nat (length S).

(** What the loop of [_merge_projects] maintains between the store [h] it
    started from, the references scanned so far and its state: objects keep
    their name and url, descriptions and technologies only grow, objects
    that were not scanned are as they were, and the map holds scanned
    objects under their normalized names. *)
Definition proj_inv (h : list Project.t) (scanned : list ref)
    (st : ResumeMerger.proj_state) : Prop :=
  length (ResumeMerger.store st) = length h
  ∧ (∀ i p, h !! i = Some p →
       ∃ p', ResumeMerger.store st !! i = Some p'
         ∧ Project.name p' = Project.name p
         ∧ Project.url p' = Project.url p
         ∧ (∃ more, Project.description p'
                    = Project.description p +:+ more)
         ∧ ∀ t, t ∈ Project.technologies p → t ∈ Project.technologies p')
  ∧ (∀ i, i ∉ scanned → ResumeMerger.store st !! i = h !! i)
  ∧ (∀ k r, (k, r) ∈ ResumeMerger.project_map st →
       r ∈ scanned
       ∧ ∃ proj, ResumeMerger.store st !! r = Some proj
                 ∧ normalized proj = k)
  ∧ NoDup (dict_keys (ResumeMerger.project_map st)).

(** The fields the experience builder of the parser never fills. *)
Definition undated (e : Experience.t) : Prop :=
  Experience.start_date e = None ∧ Experience.end_date e = None
  ∧ Experience.current e = false ∧ Experience.location e = None
  ∧ Experience.technologies e = [].

(** The header keywords of the first experience pattern. *)
Definition exp_headers : list string :=
  ["experience"; "work history"; "employment"].

(** * Properties *)

(** ** Loops and sorting *)

Section Folds.
Context {A B : Type} (f : B → A → B).

(** The nested loops of the mergers visit the concatenation of the lists. *)
Lemma foldl_concat (ls : list (list A)) (b : B) :
  foldl (λ st l, foldl f st l) b ls = foldl f b (concat ls).
Proof.
  revert b. induction ls as [|l ls IH]; intros b; simpl; [done|].
  by rewrite IH, foldl_app.
Qed.
End Folds.

Section SortFacts.
Context {A : Type} (lt : A → A → bool).

Lemma insert_desc_perm x l : insert_desc lt x l ≡ₚ x :: l.
Proof.
  induction l as [|y l IH]; simpl; [done|].
  destruct (lt x y); [|done].
  rewrite IH. apply Permutation_swap.
Qed.

Lemma sort_desc_perm l : sort_desc lt l ≡ₚ l.
Proof.
  induction l as [|x l IH]; simpl; [done|].
  fold (sort_desc lt l). by rewrite insert_desc_perm, IH.
Qed.

Hypothesis lt_asym : ∀ x y, lt x y = true → lt y x = false.
Hypothesis lt_negtrans :
  ∀ x y z, lt x y = false → lt y z = false → lt x z = false.

Lemma insert_desc_sorted x l :
  StronglySorted (not_below lt) l →
  StronglySorted (not_below lt) (insert_desc lt x l).
Proof.
  induction 1 as [|y l Hs IH Hy]; simpl.
  - repeat constructor.
  - destruct (lt x y) eqn:Hxy.
    + constructor; [done|].
      rewrite insert_desc_perm. constructor; [by apply lt_asym | done].
    + constructor; [by constructor|].
      constructor; [done|].
      eapply Forall_impl; [exact Hy|]. intros z Hz.
      by apply (lt_negtrans x y z).
Qed.

Lemma sort_desc_sorted l : StronglySorted (not_below lt) (sort_desc lt l).
Proof.
  induction l as [|x l IH]; simpl; [constructor|].
  by apply insert_desc_sorted.
Qed.
End SortFacts.

Lemma StronglySorted_lookup {A} (R : A → A → Prop) (l : list A) i j x y :
  StronglySorted R l → (i < j)%nat → l !! i = Some x → l !! j = Some y → R x y.
Proof.
  intros Hs. revert i j. induction Hs as [|z l Hs IH Hz]; intros i j Hij Hi Hj.
  - done.
  - destruct j as [|j]; [lia|]. destruct i as [|i]; simpl in *.
    + injection Hi as ->. rewrite Forall_forall in Hz.
      apply Hz. by eapply list_elem_of_lookup_2.
    + apply (IH i j); [lia|done..].
Qed.

(** ** Order on strings and on sort keys *)

Lemma str_ltb_false a b : Str.ltb a b = false ↔ String.leb b a = true.
Proof.
  unfold Str.ltb, String.ltb, String.leb.
  rewrite (String.compare_antisym a b).
  by destruct (String.compare b a).
Qed.

Lemma str_ltb_asym a b : Str.ltb a b = true → Str.ltb b a = false.
Proof.
  unfold Str.ltb, String.ltb. rewrite (String.compare_antisym a b).
  by destruct (String.compare b a).
Qed.

Lemma str_ltb_negtrans a b c :
  Str.ltb a b = false → Str.ltb b c = false → Str.ltb a c = false.
Proof.
  rewrite !str_ltb_false. intros Hba Hcb.
  apply Is_true_true. apply Is_true_true in Hba, Hcb.
  change (String.le c a). by trans b.
Qed.

Lemma str_ltb_irrefl a : Str.ltb a a = false.
Proof. apply str_ltb_false, Is_true_true. change (String.le a a). done. Qed.

Lemma pair_ltb_asym a b :
  ResumeMerger.pair_ltb a b = true → ResumeMerger.pair_ltb b a = false.
Proof.
  destruct a as [[] sa], b as [[] sb]; unfold ResumeMerger.pair_ltb; simpl;
    try done; apply str_ltb_asym.
Qed.

Lemma pair_ltb_negtrans a b c :
  ResumeMerger.pair_ltb a b = false → ResumeMerger.pair_ltb b c = false →
  ResumeMerger.pair_ltb a c = false.
Proof.
  destruct a as [[] sa], b as [[] sb], c as [[] sc];
    unfold ResumeMerger.pair_ltb; simpl; try done; apply str_ltb_negtrans.
Qed.

(** ** Experience: exact deduplication *)

Section ExperienceDedup.
Import ResumeMerger.

Lemma exp_fold_filter s xs st :
  filter (same_signature s) (foldl exp_step st xs).2 =
  filter (same_signature s) st.2 ++
    (if decide (s ∈ st.1) then []
     else option_list (head (filter (same_signature s) xs))).
Proof.
  revert st. induction xs as [|x xs IH]; intros [seen merged]; simpl.
  - destruct (decide _); by rewrite app_nil_r.
  - unfold exp_step at 2. simpl.
    destruct (decide (signature x ∉ seen)) as [Hnew|Hold]; rewrite IH; simpl.
    + rewrite filter_app, <- app_assoc. f_equal.
      rewrite filter_cons, filter_nil.
      destruct (decide (same_signature s x)) as [Hs|Hs];
        unfold same_signature in Hs.
      * subst s.
        rewrite decide_True
          by (apply elem_of_union; left; by apply elem_of_singleton).
        rewrite decide_False by done. by rewrite filter_cons_True.
      * rewrite filter_cons_False by done. simpl.
        destruct (decide (s ∈ seen)).
        -- by rewrite decide_True by (apply elem_of_union; by right).
        -- rewrite decide_False; [done|].
           rewrite elem_of_union, elem_of_singleton. by intros [?|?].
    + f_equal. destruct (decide (s ∈ seen)); [done|].
      rewrite filter_cons_False; [done|].
      unfold same_signature. intros Heq. subst s. by apply Hold.
Qed.

Lemma collect_experience_filter s exp_lists :
  filter (same_signature s) (collect_experience exp_lists).2 =
  option_list (head (filter (same_signature s) (concat exp_lists))).
Proof.
  unfold collect_experience. by rewrite foldl_concat, exp_fold_filter.
Qed.

Lemma merge_experience_filter s exp_lists :
  filter (same_signature s) (_merge_experience exp_lists) =
  option_list (head (filter (same_signature s) (concat exp_lists))).
Proof.
  unfold _merge_experience.
  pose proof (collect_experience_filter s exp_lists) as Hc.
  assert (Hp : filter (same_signature s)
                 (sort_desc exp_key_lt (collect_experience exp_lists).2)
               ≡ₚ option_list
                    (head (filter (same_signature s) (concat exp_lists)))).
  { rewrite <- Hc. by rewrite sort_desc_perm. }
  destruct (head _) as [e0|]; simpl in *.
  - by apply Permutation_singleton_r.
  - by apply Permutation_nil_r.
Qed.
End ExperienceDedup.

Import ResumeMerger.

(** [str.lower] and [str.strip] beyond ASCII: "École" and "école" have one
    lower-case form, and the no-break space and NEL are stripped. *)
Lemma lower_strip_latin1 :
  Str.lower (String "201" "cole") = String "233" "cole"
  ∧ Str.strip (String "160" "ab" +:+ String "133" "") = "ab".
Proof. by vm_compute. Qed.

Lemma exact_key_signature e1 e2 :
  exact_key e1 = exact_key e2 → signature e1 = signature e2.
Proof. unfold exact_key, signature. by intros [= -> -> ->]. Qed.

Lemma lower_char_underscore c :
  Ascii.eqb "_" (Str.lower_char c) = Ascii.eqb "_" c.
Proof. by destruct c as [[] [] [] [] [] [] [] []]. Qed.

Lemma mem_lower_underscore s : Str.mem "_" (Str.lower s) = Str.mem "_" s.
Proof.
  induction s as [|c s IH]; [done|].
  cbn [Str.lower Str.mem]. by rewrite lower_char_underscore, IH.
Qed.

Lemma append_cons c (s t : string) : String c s +:+ t = String c (s +:+ t).
Proof. done. Qed.

Lemma append_nil_l (t : string) : "" +:+ t = t.
Proof. done. Qed.

(** A part without the separator can be read back from a joined string. *)
Lemma join_part_inj (a b r r' : string) :
  Str.mem "_" a = false → Str.mem "_" b = false →
  a +:+ "_" +:+ r = b +:+ "_" +:+ r' → a = b ∧ r = r'.
Proof.
  revert b. induction a as [|x a IH]; intros [|y b] Ha Hb;
    cbn [Str.mem] in Ha, Hb;
    rewrite ?append_nil_l, !append_cons, ?append_nil_l.
  - by intros [= ->].
  - intros [= <- _]. by rewrite Ascii.eqb_refl in Hb.
  - intros [= -> _]. by rewrite Ascii.eqb_refl in Ha.
  - apply orb_false_iff in Ha as [_ Ha].
    apply orb_false_iff in Hb as [_ Hb].
    intros [= -> H].
    by destruct (IH b Ha Hb H) as [-> ->].
Qed.

Lemma signature_exact_key e1 e2 :
  no_underscore e1 → no_underscore e2 →
  signature e1 = signature e2 → exact_key e1 = exact_key e2.
Proof.
  intros [Hc1 Ht1] [Hc2 Ht2]. unfold signature, exact_key. intros H.
  apply join_part_inj in H as [-> H]; [|by rewrite mem_lower_underscore..].
  apply join_part_inj in H as [-> ->]; [|by rewrite mem_lower_underscore..].
  done.
Qed.

Lemma kept_first exp_lists e :
  e ∈ concat exp_lists →
  ∃ k, filter (same_signature (signature e)) (_merge_experience exp_lists) = [k]
       ∧ head (filter (same_signature (signature e)) (concat exp_lists))
         = Some k.
Proof.
  intros He. rewrite merge_experience_filter.
  destruct (filter _ (concat exp_lists)) as [|k l] eqn:Hf.
  - assert (e ∈ filter (same_signature (signature e)) (concat exp_lists))
      as Hin by (by apply list_elem_of_filter).
    rewrite Hf in Hin. by apply elem_of_nil in Hin.
  - by exists k.
Qed.

Lemma merged_elem_of exp_lists x :
  x ∈ _merge_experience exp_lists → x ∈ concat exp_lists.
Proof.
  intros Hx.
  assert (x ∈ filter (same_signature (signature x))
                     (_merge_experience exp_lists)) as Hin
    by (by apply list_elem_of_filter).
  rewrite merge_experience_filter in Hin.
  destruct (filter _ (concat exp_lists)) as [|k l] eqn:Hf; simpl in Hin;
    [by apply elem_of_nil in Hin|].
  apply list_elem_of_singleton in Hin as ->.
  assert (k ∈ filter (same_signature (signature k)) (concat exp_lists))
    as Hk by (rewrite Hf; apply list_elem_of_here).
  by apply list_elem_of_filter in Hk as [_ ?].
Qed.

(** Without the separator in companies and titles, the entries of one
    signature are the entries of one triple. *)
Lemma same_key_filter e l :
  no_underscore e → Forall no_underscore l →
  filter (same_key e) l = filter (same_signature (signature e)) l.
Proof.
  intros He. induction 1 as [|x l Hx Hl IH]; [done|].
  rewrite !filter_cons, IH.
  destruct (decide (same_key e x)) as [Hk|Hk].
  - rewrite decide_True; [done|]. by apply exact_key_signature.
  - rewrite decide_False; [done|]. intros Hs. apply Hk.
    by apply signature_exact_key.
Qed.

(** C1 (amended): when no company and no title holds the character ["_"],
    the merged list keeps, of the input entries that agree on lower-cased
    company, lower-cased title and start date as written (a missing one as
    the empty string), exactly one, the first in scanning order with all its
    fields as they are; two entries that agree on the three are represented
    by that one entry, and two entries that differ in one of the three are
    represented by two different merged entries. *)
Theorem merge_experience_exact_dedup exp_lists e1 e2 :
  Forall no_underscore (concat exp_lists) →
  e1 ∈ concat exp_lists → e2 ∈ concat exp_lists →
  let merged := _merge_experience exp_lists in
  (∃ k1, filter (same_key e1) merged = [k1]
         ∧ head (filter (same_key e1) (concat exp_lists)) = Some k1)
  ∧ (exact_key e1 = exact_key e2 →
     filter (same_key e2) merged = filter (same_key e1) merged)
  ∧ (exact_key e1 ≠ exact_key e2 →
     ∃ k1 k2, k1 ≠ k2 ∧ k1 ∈ merged ∧ k2 ∈ merged
              ∧ exact_key k1 = exact_key e1 ∧ exact_key k2 = exact_key e2).
Proof.
  intros Hall H1 H2 merged.
  assert (Hu : ∀ e, e ∈ concat exp_lists → no_underscore e)
    by (by apply Forall_forall).
  assert (Hm : Forall no_underscore merged).
  { apply Forall_forall. intros x Hx. by apply Hu, merged_elem_of. }
  assert (Hkept : ∀ e, e ∈ concat exp_lists →
    ∃ k, filter (same_key e) merged = [k]
         ∧ head (filter (same_key e) (concat exp_lists)) = Some k).
  { intros e He. rewrite !same_key_filter by auto. by apply kept_first. }
  split; [by apply Hkept|]. split.
  - intros Hk. apply list_filter_iff. intros x. unfold same_key.
    by rewrite Hk.
  - intros Hne.
    destruct (Hkept _ H1) as (k1 & Hk1 & _).
    destruct (Hkept _ H2) as (k2 & Hk2 & _).
    assert (k1 ∈ filter (same_key e1) merged) as Hin1
      by (rewrite Hk1; apply list_elem_of_here).
    assert (k2 ∈ filter (same_key e2) merged) as Hin2
      by (rewrite Hk2; apply list_elem_of_here).
    apply list_elem_of_filter in Hin1 as [Hs1 Hm1].
    apply list_elem_of_filter in Hin2 as [Hs2 Hm2].
    exists k1, k2. repeat split; try done.
    intros ->. apply Hne. by rewrite <- Hs1, <- Hs2.
Qed.

Lemma merge_experience_exact_dedup_witness :
  let a := experience "Engineer" "Acme" (Some "2020") false in
  let b := experience "ENGINEER" "acme" (Some "2020") true in
  let c := experience "Intern" "Acme" (Some "2019") false in
  let merged := _merge_experience [[a]; [b; c]] in
  (∃ k1, filter (same_key a) merged = [k1]
         ∧ head (filter (same_key a) (concat [[a]; [b; c]])) = Some k1)
  ∧ filter (same_key b) merged = filter (same_key a) merged
  ∧ ∃ k1 k2, k1 ≠ k2 ∧ k1 ∈ merged ∧ k2 ∈ merged
             ∧ exact_key k1 = exact_key a ∧ exact_key k2 = exact_key c.
Proof.
  intros a b c merged.
  destruct (merge_experience_exact_dedup [[a]; [b; c]] a c)
    as (Hkept & _ & Hdiff).
  { repeat constructor. }
  { apply list_elem_of_here. }
  { do 2 apply list_elem_of_further. apply list_elem_of_here. }
  destruct (merge_experience_exact_dedup [[a]; [b; c]] a b)
    as (_ & Hsame & _).
  { repeat constructor. }
  { apply list_elem_of_here. }
  { apply list_elem_of_further, list_elem_of_here. }
  split; [exact Hkept|]. split; [by apply Hsame|].
  apply Hdiff. vm_compute. congruence.
Defined.

(** C1 as stated fails for the start date, which the signature takes as it
    is written: two entries that differ only in the case of their start
    dates agree after lower-casing and are both kept. *)
Lemma merge_experience_lowercase_counterexample :
  let a := experience "Engineer" "Acme" (Some "Jan 2020") false in
  let b := experience "Engineer" "Acme" (Some "jan 2020") false in
  spec_identity a = spec_identity b ∧ _merge_experience [[a]; [b]] = [b; a].
Proof. vm_compute. done. Qed.

(** What the amended claim leaves aside: the parts of the signature are
    joined by ["_"], so with that character in a company or a title two
    entries that differ in both can have one signature, and the second is
    dropped. *)
Lemma signature_join_collision :
  let c := experience "c" "a_b" None false in
  let d := experience "b_c" "a" None false in
  exact_key c ≠ exact_key d ∧ signature c = signature d
  ∧ _merge_experience [[c]; [d]] = [c].
Proof. vm_compute. repeat split; congruence. Qed.

(** ** Experience: order *)

Lemma merge_experience_sorted exp_lists :
  StronglySorted (not_below exp_key_lt) (_merge_experience exp_lists).
Proof.
  apply sort_desc_sorted; unfold exp_key_lt.
  - intros x y. apply pair_ltb_asym.
  - intros x y z. apply pair_ltb_negtrans.
Qed.

(** C6 (amended): in the merged experience list no entry with
    [current = false] comes before one with [current = true]; two entries of
    the same group are in descending order of [start_date or "0000"],
    compared as strings; so an entry without start date comes after every
    entry of its group whose start date is above ["0000"] as a string. *)
Theorem merge_experience_order exp_lists i j x y :
  (i < j)%nat →
  _merge_experience exp_lists !! i = Some x →
  _merge_experience exp_lists !! j = Some y →
  (Experience.current y = true → Experience.current x = true)
  ∧ (Experience.current x = Experience.current y →
     Str.ltb (sort_date x) (sort_date y) = false)
  ∧ (Experience.current x = Experience.current y →
     opt_truthy (Experience.start_date x) = false →
     Str.ltb "0000" (sort_date y) = false).
Proof.
  intros Hij Hi Hj.
  pose proof (StronglySorted_lookup _ _ _ _ _ _
                (merge_experience_sorted exp_lists) Hij Hi Hj) as H.
  unfold not_below, exp_key_lt, pair_ltb, sort_date in *.
  unfold exp_sort_key in *. simpl in *.
  destruct (Experience.current x), (Experience.current y); simpl in *;
    try done.
  - split; [done|]. split; [done|]. intros _ Hm.
    destruct (Experience.start_date x) as [s|]; simpl in *; [|done].
    by rewrite Hm in H.
  - split; [done|]. split; [done|]. intros _ Hm.
    destruct (Experience.start_date x) as [s|]; simpl in *; [|done].
    by rewrite Hm in H.
Qed.

Lemma merge_experience_order_witness :
  let a := experience "Engineer" "Acme" (Some "2021") false in
  let b := experience "Intern" "Acme" None false in
  (Experience.current b = true → Experience.current a = true)
  ∧ (Experience.current a = Experience.current b →
     Str.ltb (sort_date a) (sort_date b) = false)
  ∧ (Experience.current a = Experience.current b →
     opt_truthy (Experience.start_date a) = false →
     Str.ltb "0000" (sort_date b) = false).
Proof.
  intros a b.
  apply (merge_experience_order [[b]; [a]] 0 1 a b); [lia|reflexivity..].
Defined.

(** C6 as stated fails in its last clause: a start date that is below
    ["0000"] as a string, here one with a leading space, sorts after the
    entry without start date. *)
Lemma missing_start_date_not_last_counterexample :
  let a := experience "Intern" "Acme" None false in
  let b := experience "Engineer" "Acme" (Some " 2019") false in
  _merge_experience [[a; b]] = [a; b]
  ∧ Experience.start_date a = None
  ∧ last (_merge_experience [[a; b]]) = Some b.
Proof. vm_compute. done. Qed.

(** ** Skills: truncation *)

Lemma slice_to_prefix {A} n (l : list A) : slice_to n l `prefix_of` l.
Proof. unfold slice_to. destruct (0 <=? n); apply prefix_take. Qed.

(** C5 (amended): for a threshold in the range 0..100 of the scorer,
    [merge] returns, and its skills are a prefix of the deduplicated and
    ranked list [_merge_skills] computes from all the resumes; for a positive
    [max_skills] they are its first [max_skills] entries, so at most
    [max_skills] of them; for [max_skills = 0] the list is not truncated. *)
Theorem merge_skills_truncation h resumes settings :
  0 ≤ MergeSettings.deduplicate_threshold settings ≤ 100 →
  let full := _merge_skills (ParsedResume.skills <$> resumes)
                (MergeSettings.deduplicate_threshold settings) in
  let n := MergeSettings.max_skills settings in
  ∃ merged,
    (merge h resumes (Some settings)).2 = Return merged
    ∧ ParsedResume.skills merged `prefix_of` full
    ∧ (0 < n → ParsedResume.skills merged = take (Z.to_nat n) full
               ∧ Z.of_nat (length (ParsedResume.skills merged)) ≤ n)
    ∧ (n = 0 → ParsedResume.skills merged = full).
Proof.
  intros _ full n. eexists. split; [reflexivity|]. simpl.
  fold full. fold n. repeat split.
  - destruct (_ && _); [apply slice_to_prefix|done].
  - destruct (n =? 0) eqn:H0; [lia|]. simpl.
    destruct (n <? Z.of_nat (length full)) eqn:Hlt.
    + unfold slice_to. by destruct (0 <=? n) eqn:?; [|lia].
    + rewrite take_ge; [done|lia].
  - destruct (n =? 0) eqn:H0; [lia|]. simpl.
    destruct (n <? Z.of_nat (length full)) eqn:Hlt.
    + unfold slice_to. destruct (0 <=? n) eqn:?; [|lia].
      rewrite length_take. lia.
    + lia.
  - intros ->. done.
Qed.

Lemma merge_skills_truncation_witness :
  let resumes := [resume [skill "Python" 1; skill "React" 1] [];
                  resume [skill "python" 1; skill "Vue" 1] []] in
  let settings := MergeSettings.mk [] 2 "date" 85 in
  let full := _merge_skills (ParsedResume.skills <$> resumes) 85 in
  ∃ merged,
    (merge [] resumes (Some settings)).2 = Return merged
    ∧ ParsedResume.skills merged `prefix_of` full
    ∧ (0 < 2 → ParsedResume.skills merged = take (Z.to_nat 2) full
               ∧ Z.of_nat (length (ParsedResume.skills merged)) ≤ 2)
    ∧ (2 = 0 → ParsedResume.skills merged = full).
Proof.
  intros resumes settings full.
  apply (merge_skills_truncation [] resumes settings). simpl. lia.
Defined.

(** C5 as stated fails for [max_skills = 0]: the guard
    [if settings.max_skills and ...] skips the truncation and both skills
    are returned. *)
Lemma max_skills_zero_counterexample :
  let resumes := [resume [skill "Python" 1] []; resume [skill "React" 1] []] in
  let settings := MergeSettings.mk [] 0 "date" 85 in
  ∃ merged,
    (merge [] resumes (Some settings)).2 = Return merged
    ∧ length (ParsedResume.skills merged) = 2%nat
    ∧ ¬ (Z.of_nat (length (ParsedResume.skills merged))
         ≤ MergeSettings.max_skills settings).
Proof.
  eexists. split; [reflexivity|]. vm_compute. split; [done|].
  intros H. by apply H.
Qed.

(** ** The merge endpoint *)




(** ** Projects: the inputs are updated in place *)

(** C7 fails on the code: the map of [_merge_projects] holds the input
    objects themselves, and folding the second project into the first one
    assigns to the fields of the first input object. *)
Theorem merge_projects_mutates_input :
  let h := portfolio_store in
  let after := (_merge_projects h [[0%nat]; [1%nat]] 85).1 in
  let after_merge :=
    (merge h [resume [] [0%nat]; resume [] [1%nat]]
           (Some MergeSettings.default)).1 in
  Project.description <$> h !! 0%nat = Some "built with React"
  ∧ Project.description <$> after !! 0%nat
    = Some "built with React | added dark mode"
  ∧ after ≠ h ∧ after_merge = after.
Proof. vm_compute. repeat split; congruence. Qed.

(** ** Dictionaries *)

Section DictFacts.
Context {V : Type}.
Implicit Types (m : list (string * V)) (k : string).

Lemma dict_set_keys k (v : V) m :
  (k ∈ dict_keys m ∧ dict_keys (dict_set k v m) = dict_keys m)
  ∨ ((k ∉ dict_keys m) ∧ dict_keys (dict_set k v m) = dict_keys m ++ [k]).
Proof.
  unfold dict_keys. induction m as [|[k' v'] m IH]; csimpl.
  - right. split; [apply not_elem_of_nil|done].
  - destruct (String.eqb_spec k k') as [->|Hne]; csimpl.
    + left. split; [apply list_elem_of_here|done].
    + destruct IH as [[Hin Heq]|[Hnin Heq]]; rewrite Heq.
      * left. split; [by apply list_elem_of_further|done].
      * right. split; [|done].
        rewrite elem_of_cons. by intros [?|?].
Qed.

Lemma dict_alter_keys (f : V → V) k m :
  dict_keys (dict_alter f k m) = dict_keys m.
Proof.
  unfold dict_keys. induction m as [|[k' v'] m IH]; csimpl; [done|].
  destruct (String.eqb k k'); csimpl; [done|]. by rewrite IH.
Qed.
End DictFacts.

(** ** Projects: order of the result *)

Lemma proj_step_names thr st r :
  Project.name <$> store (proj_step thr st r) = Project.name <$> store st.
Proof.
  unfold proj_step. destruct (store st !! r) as [proj|] eqn:Hr; [|done].
  unfold proj_body; cbv zeta. destruct (find_match _ _ _) as [key|]; [|done].
  destruct (Str.truthy key); [|done].
  destruct (dict_get key _) as [e|]; [|done].
  destruct (store st !! e) as [existing|] eqn:He; [|done]. simpl.
  rewrite list_fmap_insert. simpl. apply list_insert_id.
  by rewrite list_lookup_fmap, He.
Qed.

Lemma scan_names thr st rs :
  Project.name <$> store (foldl (proj_step thr) st rs)
  = Project.name <$> store st.
Proof.
  revert st. induction rs as [|r rs IH]; intros st; simpl; [done|].
  by rewrite IH, proj_step_names.
Qed.

Lemma proj_step_keys thr st r :
  dict_keys (project_map (proj_step thr st r)) = dict_keys (project_map st)
  ∨ ∃ proj, store st !! r = Some proj
            ∧ (normalized proj ∉ dict_keys (project_map st))
            ∧ dict_keys (project_map (proj_step thr st r))
              = dict_keys (project_map st) ++ [normalized proj].
Proof.
  unfold proj_step. destruct (store st !! r) as [proj|] eqn:Hr; [|by left].
  assert (Hins :
    dict_keys (dict_set (normalized proj) r (project_map st))
      = dict_keys (project_map st)
    ∨ ∃ proj0, Some proj = Some proj0
        ∧ (normalized proj0 ∉ dict_keys (project_map st))
        ∧ dict_keys (dict_set (normalized proj) r (project_map st))
          = dict_keys (project_map st) ++ [normalized proj0]).
  { destruct (dict_set_keys (normalized proj) r (project_map st))
      as [[_ Heq]|[Hnin Heq]]; [by left|]. right. by exists proj. }
  unfold proj_body; cbv zeta. fold (normalized proj).
  destruct (find_match _ _ _) as [key|]; [|exact Hins].
  destruct (Str.truthy key); [|exact Hins].
  destruct (dict_get key _) as [e|]; [|by left].
  destruct (store st !! e) as [existing|]; by left.
Qed.

Lemma scan_keys_prefix thr st rs :
  dict_keys (project_map st)
  `prefix_of` dict_keys (project_map (foldl (proj_step thr) st rs)).
Proof.
  revert st. induction rs as [|r rs IH]; intros st; simpl; [done|].
  etrans; [|apply IH].
  destruct (proj_step_keys thr st r) as [->|(proj & _ & _ & ->)]; [done|].
  by apply prefix_app_r.
Qed.

Lemma scan_keys_NoDup thr st rs :
  NoDup (dict_keys (project_map st)) →
  NoDup (dict_keys (project_map (foldl (proj_step thr) st rs))).
Proof.
  revert st. induction rs as [|r rs IH]; intros st Hnd; simpl; [done|].
  apply IH.
  destruct (proj_step_keys thr st r) as [->|(proj & _ & Hnin & ->)]; [done|].
  apply NoDup_app. repeat split; [done| |apply NoDup_singleton].
  intros k Hk Hk'. apply list_elem_of_singleton in Hk' as ->. by apply Hnin.
Qed.

(** ** The parser *)

Section Matcher.
Import re.

Lemma repeat_go_fail p lo hi k pv rs i g :
  (∀ c, k c = None) → repeat_go p lo hi k pv rs i g = None.
Proof.
  intros Hk. revert lo hi pv i.
  induction rs as [|a t IH]; intros lo hi pv i; simpl.
  - destruct lo; [apply Hk|done].
  - destruct (p a && _); [rewrite IH|]; destruct lo; by try apply Hk.
Qed.

Lemma lazy_go_fail k pv rs i g :
  (∀ c, k c = None) → lazy_go k pv rs i g = None.
Proof.
  intros Hk. revert pv i.
  induction rs as [|a t IH]; intros pv i; simpl; rewrite Hk; [done|].
  apply IH.
Qed.

(** A pattern cannot match in front of a continuation that always fails. *)
Lemma exec_fail r : ∀ k c, (∀ c', k c' = None) → exec r k c = None.
Proof.
  induction r as [|p| | |a IHa b IHb|a IHa b IHb|a IHa|p lo hi| |a IHa];
    intros k c Hk; simpl.
  - apply Hk.
  - destruct (rest c) as [|x t]; [done|]. destruct (p x); [apply Hk|done].
  - destruct (rest c) as [|x [|y t]]; [apply Hk| |done].
    destruct (Ascii.eqb x _); [apply Hk|done].
  - destruct (xorb _ _); [apply Hk|done].
  - apply IHa. intros c'. by apply IHb.
  - rewrite IHa by done. by apply IHb.
  - rewrite IHa by done. apply Hk.
  - by apply repeat_go_fail.
  - by apply lazy_go_fail.
  - apply IHa. intros c'. apply Hk.
Qed.

(** No three digits follow the end of the text. *)
Lemma digits_after_dollar k c :
  exec (Seq Dollar (Seq (Opt Dollar) (Repeat Str.is_digit 3 (Some 3%nat))))
       k c = None.
Proof.
  destruct c as [pv rs i g]. simpl.
  destruct rs as [|x [|y t]]; simpl; [done| |done].
  destruct (Ascii.eqb_spec x "010") as [->|]; by simpl.
Qed.
End Matcher.

Import ResumeParser.

(** The matcher finds no phone number in any text, also without the check
    of the compiler: the pattern asks for three digits after [$]. *)
Lemma phone_pattern_never_matches text pv rs i :
  re.search_go phone_pattern text pv rs i = None.
Proof.
  revert pv i. induction rs as [|a t IH]; intros pv i; simpl.
  - done.
  - rewrite IH.
    set (c := re.Cursor pv (a :: t) i None).
    enough (re.exec phone_pattern Some c = None) as H.
    { unfold phone_pattern in H. simpl in H. unfold c in H. by rewrite H. }
    unfold phone_pattern. simpl re.seq.
    change (re.exec (re.Seq ?a ?b) ?k ?c) with (re.exec a (re.exec b k) c).
    apply exec_fail. intros c'.
    change (re.exec (re.Seq re.Dollar (re.Seq ?o (re.Seq ?d ?b))) ?k c')
      with (re.exec (re.Seq re.Dollar (re.Seq o d)) (re.exec b k) c').
    apply digits_after_dollar.
Qed.

(** C2 fails on the code: [$?] in the phone pattern has nothing to repeat,
    so the search for a phone number, and with it the extraction of the
    personal information, raises for every text. *)
Theorem phone_search_raises text :
  re.search phone_pattern text = Raise (re_error "nothing to repeat")
  ∧ _parse_personal_info text = Raise (re_error "nothing to repeat")
  ∧ re.search phone_pattern "555-123-4567"
    = Raise (re_error "nothing to repeat").
Proof. done. Qed.

(** C9 fails on the code: on the empty text the list builders return
    empty lists, but the extraction of the personal information raises, and
    so does the extraction as a whole. *)
Theorem parse_empty_text_raises :
  parse_text "" = Raise (re_error "nothing to repeat")
  ∧ _parse_personal_info "" = Raise (re_error "nothing to repeat")
  ∧ _parse_skills "" = []
  ∧ _parse_experience "" = Return []
  ∧ _parse_education "" = Return []
  ∧ _parse_projects "" = Return [].
Proof. vm_compute. done. Qed.

(** ** Skills: the empty key *)

(** C3 fails on the code: the second mention matches the key [""] of the
    first, [if matched_key:] takes the empty key for no match, and the entry
    is written anew: frequency 1 for two mentions, and the confidence of the
    last mention, not the highest. *)
Theorem merge_skills_empty_key_reset :
  let first := skill "" 1 in
  let second := skill " " (1 # 2) in
  find_match (Str.strip (Str.lower (Skill.name second)))
             (skill_step 85 [] first) 85 = Some ""
  ∧ _merge_skills [[first]; [second]] 85
    = [Skill.mk " " (Some "general") 1 (1 # 2)].
Proof. vm_compute. done. Qed.

(** C4 fails on the code for an empty matched key: the score of the two
    names equals the threshold, yet the second skill is not folded into the
    entry of the first. *)
Theorem merge_skills_threshold_empty_key :
  let first := skill "" 1 in
  let second := skill " " (1 # 2) in
  let third := skill "abc" (1 # 2) in
  (fuzz.ratio "" "" == inject_Z 100
   ∧ _merge_skills [[first]; [second]] 100
     = [Skill.mk " " (Some "general") 1 (1 # 2)])
  ∧ (fuzz.ratio "abc" "" == inject_Z 0
     ∧ _merge_skills [[first]; [third]] 0 = [first; third]).
Proof. vm_compute. done. Qed.

(** ** The fuzzy deduplicator *)

Lemma Qltb_false a b : Qltb a b = false ↔ (b <= a)%Q.
Proof.
  unfold Qltb. rewrite negb_false_iff. apply Qle_bool_iff.
Qed.

Lemma py_max_cases a b : py_max a b = a ∨ py_max a b = b.
Proof. unfold py_max. destruct (Qltb a b); auto. Qed.

Lemma py_max_ge_l a b : (a <= py_max a b)%Q.
Proof.
  unfold py_max. destruct (Qltb a b) eqn:H; [|apply Qle_refl].
  apply Qlt_le_weak, Qnot_le_lt. intros Hle.
  apply Qltb_false in Hle. congruence.
Qed.

Lemma py_max_ge_r a b : (b <= py_max a b)%Q.
Proof.
  unfold py_max. destruct (Qltb a b) eqn:H; [apply Qle_refl|].
  by apply Qltb_false.
Qed.

Lemma lcs_refl a : fuzz.lcs a a = length a.
Proof.
  induction a as [|x a IH]; simpl; [done|].
  by rewrite Ascii.eqb_refl, IH.
Qed.

(** A string is a perfect match of itself. *)
Lemma ratio_refl k : (fuzz.ratio k k == inject_Z 100)%Q.
Proof.
  unfold fuzz.ratio. rewrite lcs_refl.
  destruct (length (list_ascii_of_string k)) as [|n] eqn:Hn; simpl plus.
  - reflexivity.
  - unfold Qeq, inject_Z. cbn [Qnum Qden].
    rewrite Zpos_P_of_succ_nat. lia.
Qed.

Section ExtractOne.
Context (scorer : string → string → Q) (query : string) (cutoff : Q).

Lemma extractOne_go_choice choices result key c s i :
  process.extractOne_go scorer query cutoff result key choices
    = Some (c, s, i) →
  result = Some (c, s, i) ∨ (c ∈ choices ∧ (cutoff <= s)%Q).
Proof.
  revert result key. induction choices as [|x choices IH];
    intros result key H; simpl in H; [by left|].
  apply IH in H as [H|[Hin Hs]].
  - destruct (Qle_bool cutoff (scorer query x)) eqn:Hle; simpl in H.
    + destruct (match result with None => true | _ => _ end); [|by left].
      injection H as <- <- <-. right.
      split; [apply list_elem_of_here|by apply Qle_bool_iff].
    + by left.
  - right. split; [by apply list_elem_of_further|done].
Qed.

Lemma extractOne_go_Some choices result key :
  is_Some result →
  is_Some (process.extractOne_go scorer query cutoff result key choices).
Proof.
  revert result key. induction choices as [|x choices IH];
    intros result key H; simpl; [done|].
  apply IH. destruct (_ && _); [done|exact H].
Qed.

(** A choice that reaches the cutoff is not lost. *)
Lemma extractOne_go_found choices result key c :
  c ∈ choices → (cutoff <= scorer query c)%Q →
  is_Some (process.extractOne_go scorer query cutoff result key choices).
Proof.
  revert result key. induction choices as [|x choices IH];
    intros result key Hin Hc; [by apply elem_of_nil in Hin|].
  simpl. apply elem_of_cons in Hin as [->|Hin]; [|by apply IH].
  apply extractOne_go_Some.
  apply Qle_bool_iff in Hc. rewrite Hc. simpl.
  destruct result as [[[? best] ?]|]; [|done].
  by destruct (Qltb best (scorer query x)).
Qed.
End ExtractOne.

Lemma find_match_key {V} k (m : list (string * V)) thr key :
  find_match k m thr = Some key → key ∈ dict_keys m.
Proof.
  unfold find_match, process.extractOne.
  destruct m as [|p m]; [done|].
  destruct (process.extractOne_go _ _ _ _ _ _) as [[[c s] i]|] eqn:H; [|done].
  intros [= <-]. by apply extractOne_go_choice in H as [?|[? _]].
Qed.

Lemma find_match_found {V} k (m : list (string * V)) thr k' :
  k' ∈ dict_keys m → (inject_Z thr <= fuzz.ratio k k')%Q →
  is_Some (find_match k m thr).
Proof.
  intros Hin Hs. unfold find_match, process.extractOne.
  destruct m as [|p m]; [by apply elem_of_nil in Hin|].
  destruct (extractOne_go_found fuzz.ratio k (inject_Z thr)
              (dict_keys (p :: m)) None 0%nat k' Hin Hs) as [[[c s] i] ->].
  by eexists.
Qed.

(** A key of the map is matched by its own name, for a threshold of at
    most 100. *)
Lemma find_match_own_key {V} k (m : list (string * V)) thr :
  thr ≤ 100 → k ∈ dict_keys m → is_Some (find_match k m thr).
Proof.
  intros Hthr Hin. apply (find_match_found k m thr k Hin).
  rewrite ratio_refl. rewrite <- Zle_Qle. done.
Qed.

Section DictUpdates.
Context {V : Type}.
Implicit Types (m : list (string * V)) (k : string).

Lemma dict_set_fresh k (v : V) m :
  k ∉ dict_keys m → dict_set k v m = m ++ [(k, v)].
Proof.
  unfold dict_keys. induction m as [|[k' v'] m IH]; csimpl; intros Hk.
  - done.
  - apply not_elem_of_cons in Hk as [Hne Hk].
    destruct (String.eqb_spec k k'); [done|]. by rewrite IH.
Qed.

Lemma elem_of_dict_keys k (v : V) m : (k, v) ∈ m → k ∈ dict_keys m.
Proof. intros H. apply list_elem_of_fmap. by exists (k, v). Qed.

Lemma dict_keys_elem_of k m : k ∈ dict_keys m → ∃ v, (k, v) ∈ m.
Proof.
  intros H. apply list_elem_of_fmap in H as ([k' v] & -> & H). by exists v.
Qed.

Lemma elem_of_dict_alter (f : V → V) key m k v' :
  NoDup (dict_keys m) → (k, v') ∈ dict_alter f key m →
  (k ≠ key ∧ (k, v') ∈ m) ∨ (k = key ∧ ∃ v, (key, v) ∈ m ∧ v' = f v).
Proof.
  unfold dict_keys. induction m as [|[k0 v0] m IH]; csimpl; intros Hnd H.
  - by apply elem_of_nil in H.
  - apply NoDup_cons in Hnd as [Hk0 Hnd].
    destruct (String.eqb_spec key k0) as [->|Hne].
    + apply elem_of_cons in H as [[= -> ->]|H].
      * right. split; [done|]. exists v0. split; [left|done].
      * left. split; [|by right].
        intros ->. apply Hk0. by apply (elem_of_dict_keys _ v').
    + apply elem_of_cons in H as [[= -> ->]|H].
      * left. split; [done|left].
      * destruct (IH Hnd H) as [[? ?]|[-> (v & ? & ->)]].
        -- left. split; [done|by right].
        -- right. split; [done|]. exists v. split; [by right|done].
Qed.
End DictUpdates.

(** ** Skills: what the merged entries count *)

Lemma by_key_snoc k L k' s :
  by_key k (L ++ [(k', s)])
  = by_key k L ++ (if decide (k' = k) then [s] else []).
Proof.
  unfold by_key. rewrite filter_app, fmap_app. f_equal.
  rewrite filter_cons, filter_nil. simpl. by destruct (decide (k' = k)).
Qed.

Lemma by_key_absent k (L : list (string * Skill.t)) :
  k ∉ L.*1 → by_key k L = [].
Proof.
  unfold by_key. induction L as [|[k' s] L IH]; csimpl; intros Hk; [done|].
  apply not_elem_of_cons in Hk as [Hne Hk].
  rewrite filter_cons_False by (simpl; congruence). by apply IH.
Qed.

Lemma aggregates_single s :
  aggregates (Skill.mk (Skill.name s) (Skill.category s) 1
                       (Skill.confidence s)) [s].
Proof.
  repeat split; simpl.
  - constructor; [apply Qle_refl|constructor].
  - by left.
  - by exists s.
Qed.

Lemma aggregates_fold v cs s :
  aggregates v cs →
  aggregates (Skill.mk (Skill.name v) (Skill.category v)
                (Skill.frequency v + 1)
                (py_max (Skill.confidence v) (Skill.confidence s)))
             (cs ++ [s]).
Proof.
  intros (Hf & Hle & Hex & c0 & Hc0 & Hname & Hcat). repeat split; simpl.
  - rewrite length_app. simpl. lia.
  - apply Forall_app. split.
    + eapply Forall_impl; [exact Hle|]. intros c Hc. simpl in Hc.
      eapply Qle_trans; [exact Hc|apply py_max_ge_l].
    + constructor; [apply py_max_ge_r|constructor].
  - apply Exists_app.
    destruct (py_max_cases (Skill.confidence v) (Skill.confidence s))
      as [E|E]; rewrite E; [by left|right; by left].
  - exists c0. split; [|done]. destruct cs; [done|]. exact Hc0.
Qed.

Lemma skill_step_inv thr m L s :
  thr ≤ 100 → skill_key s ≠ "" → skill_inv m L →
  skill_inv (skill_step thr m s) (L ++ [(landing thr m s, s)]).
Proof.
  intros Hthr Hs (Hnd & Hne & Hkeys & Hagg).
  unfold skill_step, landing. fold (skill_key s).
  destruct (find_match (skill_key s) m thr) as [key|] eqn:Hm; simpl.
  - pose proof (find_match_key _ _ _ _ Hm) as Hkey.
    assert (Str.truthy key = true) as ->.
    { destruct key; [|done]. by destruct Hne. }
    split; [by rewrite dict_alter_keys|].
    split; [by rewrite dict_alter_keys|]. split.
    + intros k. rewrite dict_alter_keys, fmap_app, elem_of_app, Hkeys.
      simpl. rewrite list_elem_of_singleton. split; [by left|].
      intros [?| ->]; [done|]. by apply Hkeys.
    + intros k v' Hin. rewrite by_key_snoc.
      apply (elem_of_dict_alter _ _ _ _ _ Hnd) in Hin
        as [[Hk Hin]|[-> (v & Hin & ->)]].
      * rewrite decide_False by done. rewrite app_nil_r. by apply Hagg.
      * rewrite decide_True by done. by apply aggregates_fold, Hagg.
  - assert (skill_key s ∉ dict_keys m) as Hfresh.
    { intros Hin. destruct (find_match_own_key _ m thr Hthr Hin) as [? H].
      congruence. }
    rewrite (dict_set_fresh _ _ _ Hfresh).
    unfold skill_inv, dict_keys in *. rewrite !fmap_app. simpl.
    split; [|split; [|split]].
    + apply NoDup_app. repeat split; [done| |apply NoDup_singleton].
      intros k Hk Hk'. apply list_elem_of_singleton in Hk' as ->. done.
    + rewrite elem_of_app, list_elem_of_singleton. intros [?|?]; [done|].
      by apply Hs.
    + intros k. rewrite !elem_of_app, Hkeys. done.
    + intros k v Hin. rewrite by_key_snoc.
      apply elem_of_app in Hin as [Hin|Hin].
      * rewrite decide_False; [rewrite app_nil_r; by apply Hagg|].
        intros <-. apply Hfresh. by apply (elem_of_dict_keys _ v).
      * apply list_elem_of_singleton in Hin as [= -> ->].
        rewrite decide_True by done.
        rewrite by_key_absent by (by rewrite <- Hkeys).
        apply aggregates_single.
Qed.

Lemma skill_scan_inv thr skills m L :
  thr ≤ 100 → (∀ s, s ∈ skills → skill_key s ≠ "") → skill_inv m L →
  skill_inv (foldl (skill_step thr) m skills) (L ++ landings thr m skills).
Proof.
  intros Hthr. revert m L. induction skills as [|s skills IH];
    intros m L Hs Hinv; simpl.
  - by rewrite app_nil_r.
  - rewrite cons_middle, app_assoc. apply IH.
    + intros s' Hs'. apply Hs. by right.
    + apply skill_step_inv; [done| |done]. apply Hs. by left.
Qed.

(** X23: apart from the empty key, the merged skills are what C3 says: for a
    threshold of the range 0..100, mentions whose canonical key is not empty
    and scores that do not sit on the threshold, every merged skill
    aggregates the mentions that contribute to one key (their number is its
    frequency, the highest of their confidences its confidence), and every
    key mentions contribute to has its merged skill. *)
Lemma merge_skills_aggregates skill_lists thr :
  0 ≤ thr ≤ 100 →
  (∀ s, s ∈ concat skill_lists → skill_key s ≠ "") →
  off_threshold thr (concat skill_lists) →
  (∀ v, v ∈ _merge_skills skill_lists thr →
        ∃ k, aggregates v (contributors thr (concat skill_lists) k))
  ∧ (∀ k, k ∈ (landings thr [] (concat skill_lists)).*1 →
          ∃ v, v ∈ _merge_skills skill_lists thr
               ∧ aggregates v (contributors thr (concat skill_lists) k)).
Proof.
  intros [_ Hthr] Hs _.
  assert (skill_inv (skill_map_of skill_lists thr)
            (landings thr [] (concat skill_lists)))
    as (Hnd & Hne & Hkeys & Hagg).
  { unfold skill_map_of. rewrite foldl_concat.
    apply (skill_scan_inv thr (concat skill_lists) [] [] Hthr Hs).
    split; [constructor|]. split; [apply not_elem_of_nil|].
    split; [done|]. intros k v Hin. by apply elem_of_nil in Hin. }
  unfold _merge_skills, contributors. split.
  - intros v Hv. rewrite sort_desc_perm in Hv.
    apply list_elem_of_fmap in Hv as ([k v'] & -> & Hin).
    exists k. by apply Hagg.
  - intros k Hk. apply Hkeys, dict_keys_elem_of in Hk as [v Hin].
    exists v. split; [|by apply Hagg].
    rewrite sort_desc_perm. apply list_elem_of_fmap. by exists (k, v).
Qed.

(** X24: apart from the empty key, the threshold separates: for a threshold
    of the range 0..100, a second skill whose score against the key of the
    first is above the threshold is folded into it, and one whose score is
    below the threshold gives a second entry. *)
Lemma skill_threshold_separates s1 s2 thr :
  0 ≤ thr ≤ 100 → skill_key s1 ≠ "" →
  let score := fuzz.ratio (skill_key s2) (skill_key s1) in
  ((inject_Z thr < score)%Q →
   _merge_skills [[s1]; [s2]] thr
   = [Skill.mk (Skill.name s1) (Skill.category s1) 2
               (py_max (Skill.confidence s1) (Skill.confidence s2))])
  ∧ ((score < inject_Z thr)%Q →
     _merge_skills [[s1]; [s2]] thr
     ≡ₚ [Skill.mk (Skill.name s1) (Skill.category s1) 1
                  (Skill.confidence s1);
         Skill.mk (Skill.name s2) (Skill.category s2) 1
                  (Skill.confidence s2)]).
Proof.
  intros Hthr Hs1 score. unfold _merge_skills, skill_map_of. simpl.
  unfold skill_step at 2. simpl. fold (skill_key s1).
  unfold skill_step, find_match, process.extractOne. simpl.
  fold (skill_key s2) (skill_key s1) score. split.
  - intros Hscore.
    assert (Qle_bool (inject_Z thr) score = true) as ->.
    { apply Qle_bool_iff. by apply Qlt_le_weak. }
    simpl. destruct (skill_key s1) as [|a k1] eqn:Hk1; [done|]. simpl.
    by rewrite Ascii.eqb_refl, String.eqb_refl.
  - intros Hscore.
    assert (Qle_bool (inject_Z thr) score = false) as ->.
    { apply not_true_iff_false. rewrite Qle_bool_iff.
      by apply Qlt_not_le. }
    simpl. destruct (String.eqb_spec (skill_key s2) (skill_key s1)) as [He|].
    + exfalso. unfold score in Hscore. rewrite He, ratio_refl in Hscore.
      rewrite <- Zlt_Qlt in Hscore. lia.
    + rewrite sort_desc_perm. done.
Qed.

(** * Further properties of the mergers *)

(** ** Sorting once more *)

Section SortMore.
Context {A K : Type} `{EqDecision K} (lt : A → A → bool) (key : A → K).

(** A list that is in order already is left as it is. *)
Lemma sort_desc_fixed l :
  StronglySorted (not_below lt) l → sort_desc lt l = l.
Proof.
  induction 1 as [|x l Hs IH Hx]; simpl; [done|].
  fold (sort_desc lt l). rewrite IH.
  destruct l as [|y l]; simpl; [done|].
  apply Forall_cons in Hx as [Hxy _]. unfold not_below in Hxy.
  by rewrite Hxy.
Qed.

Hypothesis lt_key : ∀ x y, lt x y = true → key x ≠ key y.

Lemma insert_desc_stable κ x l :
  filter (λ e, key e = κ) (insert_desc lt x l)
  = filter (λ e, key e = κ) (x :: l).
Proof.
  induction l as [|y l IH]; simpl; [done|].
  destruct (lt x y) eqn:Hxy; [|done].
  rewrite filter_cons, IH, !filter_cons.
  destruct (decide (key y = κ)), (decide (key x = κ)); try done.
  destruct (lt_key x y Hxy). congruence.
Qed.

(** The sort is stable: the elements with one key keep their order. *)
Lemma sort_desc_stable κ l :
  filter (λ e, key e = κ) (sort_desc lt l) = filter (λ e, key e = κ) l.
Proof.
  induction l as [|x l IH]; simpl; [done|].
  fold (sort_desc lt l).
  by rewrite insert_desc_stable, !filter_cons, IH.
Qed.
End SortMore.

(** ** The loops with a set of seen keys *)

Section SeenStep.
Context {A : Type} (key : A → string).

Local Abbreviation step :=
  (λ (st : gset string * list A) (x : A),
     if decide (key x ∉ st.1)
     then ({[key x]} ∪ st.1, st.2 ++ [x]) else st).

Lemma seen_fold_filter s xs st :
  filter (λ x, key x = s) (foldl step st xs).2 =
  filter (λ x, key x = s) st.2 ++
    (if decide (s ∈ st.1) then []
     else option_list (head (filter (λ x, key x = s) xs))).
Proof.
  revert st. induction xs as [|x xs IH]; intros [seen merged]; simpl.
  - destruct (decide _); by rewrite app_nil_r.
  - destruct (decide (key x ∉ seen)) as [Hnew|Hold]; rewrite IH; simpl.
    + rewrite filter_app, <- app_assoc. f_equal.
      rewrite !filter_cons, filter_nil.
      destruct (decide (key x = s)) as [Hs|Hs].
      * subst s.
        rewrite decide_True
          by (apply elem_of_union; left; by apply elem_of_singleton).
        by rewrite decide_False by done.
      * simpl. destruct (decide (s ∈ seen)).
        -- by rewrite decide_True by (apply elem_of_union; by right).
        -- rewrite decide_False; [done|].
           rewrite elem_of_union, elem_of_singleton. by intros [?|?].
    + f_equal. destruct (decide (s ∈ seen)); [done|].
      rewrite filter_cons_False; [done|].
      intros Heq. subst s. by apply Hold.
Qed.

Lemma seen_fold_sublist xs st :
  ∃ l, (foldl step st xs).2 = st.2 ++ l ∧ l `sublist_of` xs.
Proof.
  revert st. induction xs as [|x xs IH]; intros [seen merged]; simpl.
  - exists []. by rewrite app_nil_r.
  - destruct (decide (key x ∉ seen)).
    + destruct (IH ({[key x]} ∪ seen, merged ++ [x])) as (l & -> & Hl).
      exists (x :: l). simpl. rewrite <- app_assoc.
      split; [done|by apply sublist_skip].
    + destruct (IH (seen, merged)) as (l & -> & Hl).
      exists l. split; [done|by apply sublist_cons].
Qed.

Lemma seen_fold_NoDup xs st :
  NoDup (key <$> st.2) → (∀ x, x ∈ st.2 → key x ∈ st.1) →
  NoDup (key <$> (foldl step st xs).2)
  ∧ ∀ x, x ∈ (foldl step st xs).2 → key x ∈ (foldl step st xs).1.
Proof.
  revert st. induction xs as [|x xs IH]; intros [seen merged] Hnd Hin;
    simpl in *; [done|].
  destruct (decide (key x ∉ seen)) as [Hnew|]; [|by apply IH].
  apply IH; simpl.
  - rewrite fmap_app. apply NoDup_app. repeat split; [done| |].
    + intros k Hk Hk'. apply list_elem_of_singleton in Hk' as ->.
      apply list_elem_of_fmap in Hk as (y & Hy & Hk).
      apply Hnew. rewrite Hy. by apply Hin.
    + apply NoDup_singleton.
  - intros y Hy. apply elem_of_app in Hy as [Hy|Hy].
    + apply elem_of_union. right. by apply Hin.
    + apply list_elem_of_singleton in Hy as ->.
      apply elem_of_union. left. by apply elem_of_singleton.
Qed.

(** Entries with new and distinct keys are all appended. *)
Lemma seen_fold_fresh xs st :
  NoDup (key <$> xs) → (∀ x, x ∈ xs → key x ∉ st.1) →
  (foldl step st xs).2 = st.2 ++ xs.
Proof.
  revert st. induction xs as [|x xs IH]; intros [seen merged] Hnd Hfresh;
    simpl in *; [by rewrite app_nil_r|].
  apply NoDup_cons in Hnd as [Hx Hnd].
  rewrite decide_True by (apply Hfresh; by left).
  rewrite IH; simpl; [by rewrite <- app_assoc|done|].
  intros y Hy. rewrite elem_of_union, elem_of_singleton.
  intros [Heq|Hin].
  - apply Hx. rewrite <- Heq. apply list_elem_of_fmap. by exists y.
  - by apply (Hfresh y); [right|].
Qed.
End SeenStep.

(** ** Education *)

Lemma edu_scan_sublist xs st :
  ∃ l, (foldl edu_step st xs).2 = st.2 ++ l ∧ l `sublist_of` xs.
Proof. exact (seen_fold_sublist edu_key xs st). Qed.

Lemma edu_scan_NoDup xs :
  NoDup (edu_key <$> (foldl edu_step (∅, []) xs).2).
Proof.
  apply (seen_fold_NoDup edu_key xs (∅, [])); simpl.
  - constructor.
  - intros x Hx. by apply elem_of_nil in Hx.
Qed.

Lemma edu_scan_fresh xs :
  NoDup (edu_key <$> xs) → (foldl edu_step (∅, []) xs).2 = xs.
Proof.
  intros Hnd. apply (seen_fold_fresh edu_key xs (∅, []) Hnd).
  intros x _. apply not_elem_of_empty.
Qed.

Lemma merge_education_scan edu_lists :
  _merge_education edu_lists
  = (foldl edu_step (∅, []) (concat edu_lists)).2.
Proof. unfold _merge_education. by rewrite foldl_concat. Qed.

(** X1: the merged education is the input in scanning order with the later
    entries of every key left out: it is a subsequence of the scanned
    entries, holds every key once, and for every key exactly the first
    scanned entry that has it. *)
Theorem merge_education_first_seen edu_lists :
  let merged := _merge_education edu_lists in
  merged `sublist_of` concat edu_lists
  ∧ NoDup (edu_key <$> merged)
  ∧ ∀ k, filter (λ x, edu_key x = k) merged
         = option_list (head (filter (λ x, edu_key x = k)
                                     (concat edu_lists))).
Proof.
  intros merged. unfold merged. rewrite merge_education_scan.
  repeat split.
  - destruct (edu_scan_sublist (concat edu_lists) (∅, []))
      as (l & Hl & Hsub). simpl in Hl. by rewrite Hl.
  - apply edu_scan_NoDup.
  - intros k.
    exact (seen_fold_filter edu_key k (concat edu_lists) (∅, [])).
Qed.

Lemma merge_education_first_seen_witness :
  let a := Education.mk "BSc" (String "201" "cole Centrale") None None None in
  let b := Education.mk "bsc" (String "233" "cole centrale") (Some "Paris")
             None None in
  let c := Education.mk "MSc" "MIT" None None None in
  let merged := _merge_education [[a]; [b; c]] in
  merged `sublist_of` [a; b; c]
  ∧ NoDup (edu_key <$> merged)
  ∧ filter (λ x, edu_key x = edu_key b) merged = [a]
  ∧ filter (λ x, edu_key x = edu_key c) merged = [c].
Proof.
  intros a b c merged.
  destruct (merge_education_first_seen [[a]; [b; c]]) as (Hsub & Hnd & Hk).
  split; [exact Hsub|]. split; [exact Hnd|].
  split; [exact (Hk (edu_key b))|exact (Hk (edu_key c))].
Defined.

(** X2: merging the merged education once more changes nothing. *)
Theorem merge_education_idempotent edu_lists :
  _merge_education [_merge_education edu_lists] = _merge_education edu_lists.
Proof.
  rewrite (merge_education_scan [_]). simpl. rewrite app_nil_r.
  apply edu_scan_fresh. rewrite merge_education_scan. apply edu_scan_NoDup.
Qed.

(** ** Experience once more *)

Lemma collect_experience_scan exp_lists :
  collect_experience exp_lists = foldl exp_step (∅, []) (concat exp_lists).
Proof. unfold collect_experience. by rewrite foldl_concat. Qed.

Lemma exp_scan_sublist xs st :
  ∃ l, (foldl exp_step st xs).2 = st.2 ++ l ∧ l `sublist_of` xs.
Proof. exact (seen_fold_sublist signature xs st). Qed.

Lemma exp_scan_fresh xs :
  NoDup (signature <$> xs) → (foldl exp_step (∅, []) xs).2 = xs.
Proof.
  intros Hnd. apply (seen_fold_fresh signature xs (∅, []) Hnd).
  intros x _. apply not_elem_of_empty.
Qed.

Lemma collect_experience_NoDup exp_lists :
  NoDup (signature <$> (collect_experience exp_lists).2).
Proof.
  rewrite collect_experience_scan.
  apply (seen_fold_NoDup signature (concat exp_lists) (∅, [])); simpl.
  - constructor.
  - intros x Hx. by apply elem_of_nil in Hx.
Qed.

Lemma collect_experience_sublist exp_lists :
  (collect_experience exp_lists).2 `sublist_of` concat exp_lists.
Proof.
  rewrite collect_experience_scan.
  destruct (exp_scan_sublist (concat exp_lists) (∅, []))
    as (l & Hl & Hsub). simpl in Hl. by rewrite Hl.
Qed.

(** X3: the merged experience holds every signature once and takes each
    of its entries from the input; an input without two entries of one
    signature is only put in order. *)
Theorem merge_experience_entries exp_lists :
  let merged := _merge_experience exp_lists in
  NoDup (signature <$> merged)
  ∧ merged ⊆+ concat exp_lists
  ∧ (NoDup (signature <$> concat exp_lists) → merged ≡ₚ concat exp_lists).
Proof.
  intros merged. unfold merged, _merge_experience. repeat split.
  - rewrite sort_desc_perm. apply collect_experience_NoDup.
  - rewrite sort_desc_perm.
    apply sublist_submseteq, collect_experience_sublist.
  - intros Hnd. rewrite sort_desc_perm, collect_experience_scan.
    by rewrite exp_scan_fresh.
Qed.

Lemma merge_experience_entries_witness :
  let a := experience "Engineer" (String "201" "cole Centrale") (Some "2019")
             false in
  let b := experience "engineer" (String "233" "cole centrale") (Some "2019")
             true in
  let c := experience "Intern" "Acme" (Some "2021") false in
  (signature a = signature b
   ∧ NoDup (signature <$> _merge_experience [[a]; [b; c]])
   ∧ _merge_experience [[a]; [b; c]] ⊆+ concat [[a]; [b; c]])
  ∧ _merge_experience [[a]; [c]] ≡ₚ [a; c].
Proof.
  intros a b c. split.
  - destruct (merge_experience_entries [[a]; [b; c]]) as (Hnd & Hsub & _).
    split; [by vm_compute|]. split; [exact Hnd|exact Hsub].
  - destruct (merge_experience_entries [[a]; [c]]) as (_ & _ & Hperm).
    apply Hperm. apply (bool_decide_unpack _). by vm_compute.
Defined.

(** X4: merging the merged experience once more changes nothing. *)
Theorem merge_experience_idempotent exp_lists :
  _merge_experience [_merge_experience exp_lists]
  = _merge_experience exp_lists.
Proof.
  assert (Hnd : NoDup (signature <$> _merge_experience exp_lists)).
  { unfold _merge_experience. rewrite sort_desc_perm.
    apply collect_experience_NoDup. }
  unfold _merge_experience at 1. rewrite collect_experience_scan. simpl.
  rewrite app_nil_r.
  rewrite (exp_scan_fresh _ Hnd).
  apply sort_desc_fixed, merge_experience_sorted.
Qed.

Lemma exp_key_lt_key x y :
  exp_key_lt x y = true → exp_sort_key x ≠ exp_sort_key y.
Proof.
  unfold exp_key_lt. intros Hlt Heq. rewrite Heq in Hlt.
  destruct (exp_sort_key y) as [[] d]; unfold pair_ltb in Hlt; simpl in Hlt;
    by rewrite str_ltb_irrefl in Hlt.
Qed.

(** X5: the date sort is stable: the merged entries that share one sort
    key [(current, start_date or "0000")] stand in the order in which the
    scan met them. *)
Theorem merge_experience_stable exp_lists κ :
  filter (λ e, exp_sort_key e = κ) (_merge_experience exp_lists)
  `sublist_of` concat exp_lists.
Proof.
  unfold _merge_experience.
  rewrite (sort_desc_stable exp_key_lt exp_sort_key exp_key_lt_key).
  etrans; [apply sublist_filter|apply collect_experience_sublist].
Qed.

(** ** Personal information *)

Lemma fill_fold l acc :
  foldl fill acc l
  = if opt_truthy acc then acc
    else default acc (head (filter (λ o, opt_truthy o) l)).
Proof.
  revert acc. induction l as [|o l IH]; intros acc; simpl.
  - by destruct (opt_truthy acc).
  - rewrite IH. unfold fill.
    destruct (opt_truthy acc) eqn:Hacc; simpl.
    + rewrite andb_false_r. by rewrite Hacc.
    + rewrite andb_true_r. destruct (opt_truthy o) eqn:Ho.
      * rewrite Ho. rewrite filter_cons_True; [done|].
        by apply Is_true_true.
      * rewrite Hacc. rewrite filter_cons_False; [done|].
        by apply Is_true_false.
Qed.

Lemma merge_personal_info_fields infos acc :
  foldl (λ merged info,
           PersonalInfo.mk
             (fill (PersonalInfo.name merged) (PersonalInfo.name info))
             (fill (PersonalInfo.email merged) (PersonalInfo.email info))
             (fill (PersonalInfo.phone merged) (PersonalInfo.phone info))
             (fill (PersonalInfo.location merged)
                   (PersonalInfo.location info))
             (fill (PersonalInfo.linkedin merged)
                   (PersonalInfo.linkedin info))
             (fill (PersonalInfo.github merged) (PersonalInfo.github info))
             (fill (PersonalInfo.website merged)
                   (PersonalInfo.website info)))
        acc infos
  = PersonalInfo.mk
      (foldl fill (PersonalInfo.name acc) (PersonalInfo.name <$> infos))
      (foldl fill (PersonalInfo.email acc) (PersonalInfo.email <$> infos))
      (foldl fill (PersonalInfo.phone acc) (PersonalInfo.phone <$> infos))
      (foldl fill (PersonalInfo.location acc)
             (PersonalInfo.location <$> infos))
      (foldl fill (PersonalInfo.linkedin acc)
             (PersonalInfo.linkedin <$> infos))
      (foldl fill (PersonalInfo.github acc) (PersonalInfo.github <$> infos))
      (foldl fill (PersonalInfo.website acc)
             (PersonalInfo.website <$> infos)).
Proof.
  revert acc. induction infos as [|info infos IH]; intros acc; simpl.
  - by destruct acc.
  - by rewrite IH.
Qed.

Lemma first_truthy_not_empty l : first_truthy l ≠ Some "".
Proof.
  unfold first_truthy.
  destruct (head _) as [o|] eqn:Hh; simpl; [|done].
  apply head_Some_elem_of, list_elem_of_filter in Hh as [Ho _].
  intros ->. done.
Qed.

(** X6: every field of the merged personal information is the first value
    of that field, in the order of the resumes, that is neither none nor the
    empty string, and none when there is no such value; so a merged field is
    never the empty string. *)
Theorem merge_personal_info_first_truthy infos :
  Forall (λ field,
            field (_merge_personal_info infos)
            = first_truthy (field <$> infos)
            ∧ field (_merge_personal_info infos) ≠ Some "")
         info_fields.
Proof.
  unfold _merge_personal_info. rewrite merge_personal_info_fields.
  unfold info_fields.
  repeat (constructor;
          [simpl; rewrite fill_fold; simpl; split;
           [reflexivity|apply first_truthy_not_empty]|]).
  constructor.
Qed.

(** ** Skills: order *)

Lemma Qltb_true a b : Qltb a b = true ↔ (a < b)%Q.
Proof.
  unfold Qltb. rewrite negb_true_iff, <- not_true_iff_false, Qle_bool_iff.
  split; [apply Qnot_le_lt|apply Qlt_not_le].
Qed.

Lemma skill_key_lt_false x y :
  skill_key_lt x y = false ↔
  Skill.frequency y ≤ Skill.frequency x
  ∧ (Skill.frequency x = Skill.frequency y →
     (Skill.confidence y <= Skill.confidence x)%Q).
Proof.
  unfold skill_key_lt.
  rewrite orb_false_iff, andb_false_iff, Z.ltb_ge, Z.eqb_neq, Qltb_false.
  split.
  - intros [Hle H]. split; [done|]. intros Heq.
    destruct H as [Hne|Hc]; [by destruct Hne|done].
  - intros [Hle Hc]. split; [done|].
    destruct (decide (Skill.frequency x = Skill.frequency y)); auto.
Qed.

Lemma skill_key_lt_asym x y :
  skill_key_lt x y = true → skill_key_lt y x = false.
Proof.
  unfold skill_key_lt at 1.
  rewrite orb_true_iff, andb_true_iff, Z.ltb_lt, Z.eqb_eq, Qltb_true.
  intros H. apply skill_key_lt_false.
  destruct H as [Hlt|[Heq Hc]]; split; try lia.
  intros _. by apply Qlt_le_weak.
Qed.

Lemma skill_key_lt_negtrans x y z :
  skill_key_lt x y = false → skill_key_lt y z = false →
  skill_key_lt x z = false.
Proof.
  rewrite !skill_key_lt_false. intros [H1 H1'] [H2 H2']. split; [lia|].
  intros Heq. eapply Qle_trans; [apply H2'|apply H1']; lia.
Qed.

Lemma merge_skills_sorted skill_lists thr :
  StronglySorted (not_below skill_key_lt) (_merge_skills skill_lists thr).
Proof.
  apply sort_desc_sorted.
  - apply skill_key_lt_asym.
  - apply skill_key_lt_negtrans.
Qed.

(** X7: the merged skills are in descending order of frequency, and skills
    of equal frequency in descending order of confidence. *)
Theorem merge_skills_order skill_lists thr i j x y :
  (i < j)%nat →
  _merge_skills skill_lists thr !! i = Some x →
  _merge_skills skill_lists thr !! j = Some y →
  Skill.frequency y ≤ Skill.frequency x
  ∧ (Skill.frequency x = Skill.frequency y →
     (Skill.confidence y <= Skill.confidence x)%Q).
Proof.
  intros Hij Hi Hj. apply skill_key_lt_false.
  exact (StronglySorted_lookup _ _ _ _ _ _
           (merge_skills_sorted skill_lists thr) Hij Hi Hj).
Qed.

Lemma merge_skills_order_witness :
  let lists := [[skill "Python" 1; skill "React" (1 # 2)];
                [skill "python" 1; skill "Vue" 1]] in
  let x := Skill.mk "Python" (Some "general") 2 1 in
  let y := Skill.mk "Vue" (Some "general") 1 1 in
  Skill.frequency y ≤ Skill.frequency x
  ∧ (Skill.frequency x = Skill.frequency y →
     (Skill.confidence y <= Skill.confidence x)%Q).
Proof.
  intros lists x y.
  apply (merge_skills_order lists 85 0 1 x y); [lia|reflexivity..].
Defined.

(** X8: what [max_skills] cuts off ranks no higher than what it keeps: the
    ranked list of all merged skills is the skills of the merged resume
    followed by the skills left out, and a skill left out has at most the
    frequency of every skill kept, and at most its confidence when the
    frequencies are equal. *)
Theorem merge_keeps_top_skills h resumes settings merged :
  (merge h resumes (Some settings)).2 = Return merged →
  ∃ dropped,
    _merge_skills (ParsedResume.skills <$> resumes)
                  (MergeSettings.deduplicate_threshold settings)
    = ParsedResume.skills merged ++ dropped
    ∧ ∀ x y, x ∈ ParsedResume.skills merged → y ∈ dropped →
             Skill.frequency y ≤ Skill.frequency x
             ∧ (Skill.frequency x = Skill.frequency y →
                (Skill.confidence y <= Skill.confidence x)%Q).
Proof.
  intros Hm. simpl in Hm. injection Hm as <-. simpl.
  set (full := _merge_skills _ _).
  set (kept := if negb _ && _ then slice_to _ full else full).
  assert (Hp : kept `prefix_of` full).
  { unfold kept. destruct (_ && _); [apply slice_to_prefix|done]. }
  destruct Hp as [dropped Hfull]. exists dropped. split; [exact Hfull|].
  intros x y Hx Hy. apply skill_key_lt_false.
  pose proof (merge_skills_sorted (ParsedResume.skills <$> resumes)
                (MergeSettings.deduplicate_threshold settings)) as Hs.
  fold full in Hs. rewrite Hfull in Hs.
  apply list_elem_of_lookup in Hx as [i Hi].
  apply list_elem_of_lookup in Hy as [j Hj].
  apply (StronglySorted_lookup _ _ i (length kept + j)%nat x y Hs).
  - apply lookup_lt_Some in Hi. lia.
  - by apply lookup_app_l_Some.
  - rewrite lookup_app_r by lia. rewrite <- Hj. f_equal. lia.
Qed.

Lemma merge_keeps_top_skills_witness :
  let resumes := [resume [skill "Python" 1; skill "React" (1 # 2)] [];
                  resume [skill "python" 1; skill "Vue" 1] []] in
  let settings := MergeSettings.mk [] 2 "date" 85 in
  let merged :=
    resume [Skill.mk "Python" (Some "general") 2 1;
            Skill.mk "Vue" (Some "general") 1 1] [] in
  ∃ dropped,
    _merge_skills (ParsedResume.skills <$> resumes) 85
    = ParsedResume.skills merged ++ dropped
    ∧ ∀ x y, x ∈ ParsedResume.skills merged → y ∈ dropped →
             Skill.frequency y ≤ Skill.frequency x
             ∧ (Skill.frequency x = Skill.frequency y →
                (Skill.confidence y <= Skill.confidence x)%Q).
Proof.
  intros resumes settings merged.
  apply (merge_keeps_top_skills [] resumes settings merged).
  reflexivity.
Defined.

(** ** Skills: what holds for every input *)

Section DictElements.
Context {V : Type}.
Implicit Types (m : list (string * V)) (k : string).

Lemma elem_of_dict_set k (v : V) m k' v' :
  (k', v') ∈ dict_set k v m → (k', v') ∈ m ∨ (k', v') = (k, v).
Proof.
  induction m as [|[k0 v0] m IH]; simpl; intros H.
  - apply list_elem_of_singleton in H. by right.
  - destruct (String.eqb_spec k k0) as [->|Hne].
    + apply elem_of_cons in H as [->|H]; [by right|].
      left. by right.
    + apply elem_of_cons in H as [->|H]; [left; by left|].
      destruct (IH H) as [?|?]; [left; by right|by right].
Qed.

Lemma elem_of_dict_alter_1 (f : V → V) k m k' v' :
  (k', v') ∈ dict_alter f k m →
  (k', v') ∈ m ∨ ∃ v, (k', v) ∈ m ∧ v' = f v.
Proof.
  induction m as [|[k0 v0] m IH]; simpl; intros H.
  - by apply elem_of_nil in H.
  - destruct (String.eqb k k0).
    + apply elem_of_cons in H as [[= -> ->]|H].
      * right. exists v0. split; [by left|done].
      * left. by right.
    + apply elem_of_cons in H as [->|H]; [left; by left|].
      destruct (IH H) as [?|(v & ? & ->)]; [left; by right|].
      right. exists v. split; [by right|done].
Qed.

Lemma dict_get_elem_of k m v : dict_get k m = Some v → (k, v) ∈ m.
Proof.
  induction m as [|[k0 v0] m IH]; simpl; [done|].
  destruct (String.eqb_spec k k0) as [->|Hne].
  - intros [= ->]. by left.
  - intros H. right. by apply IH.
Qed.
End DictElements.

Lemma total_frequency_perm l1 l2 :
  l1 ≡ₚ l2 → total_frequency l1 = total_frequency l2.
Proof.
  induction 1; unfold total_frequency in *; simpl in *; lia.
Qed.

Lemma total_frequency_length l :
  Forall (λ v, 1 ≤ Skill.frequency v) l →
  Z.of_nat (length l) ≤ total_frequency l.
Proof.
  induction 1 as [|v l Hv Hl IH]; simpl; [done|].
  unfold total_frequency in *. simpl. lia.
Qed.

Lemma total_dict_set k v (m : list (string * Skill.t)) :
  (∀ k' v', (k', v') ∈ m → 1 ≤ Skill.frequency v') →
  total_frequency (dict_values (dict_set k v m))
  ≤ total_frequency (dict_values m) + Skill.frequency v.
Proof.
  unfold dict_values, total_frequency.
  induction m as [|[k0 v0] m IH]; intros Hm; csimpl; [lia|].
  assert (1 ≤ Skill.frequency v0) by (apply (Hm k0); by left).
  destruct (String.eqb k k0); csimpl; [lia|].
  assert (∀ k' v', (k', v') ∈ m → 1 ≤ Skill.frequency v') as Hm'
    by (intros k' v' Hin; apply (Hm k'); by right).
  specialize (IH Hm'). lia.
Qed.

Lemma total_dict_alter (f : Skill.t → Skill.t) k
    (m : list (string * Skill.t)) :
  (∀ v, Skill.frequency (f v) = Skill.frequency v + 1) →
  total_frequency (dict_values (dict_alter f k m))
  ≤ total_frequency (dict_values m) + 1.
Proof.
  intros Hf. unfold dict_values, total_frequency.
  induction m as [|[k0 v0] m IH]; csimpl; [lia|].
  destruct (String.eqb k k0); csimpl; [rewrite Hf|]; lia.
Qed.

Lemma skill_step_sound thr m S s :
  skill_sound m S → skill_sound (skill_step thr m s) (S ++ [s]).
Proof.
  intros [Hm Htot].
  assert (Hold : ∀ k v, (k, v) ∈ m → 1 ≤ Skill.frequency v)
    by (intros k v Hin; by destruct (Hm k v Hin)).
  assert (Hnew : skill_sound
            (dict_set (Str.strip (Str.lower (Skill.name s)))
               (Skill.mk (Skill.name s) (Skill.category s) 1
                         (Skill.confidence s)) m) (S ++ [s])).
  { split.
    - intros k v Hin. apply elem_of_dict_set in Hin as [Hin|[= -> ->]].
      + destruct (Hm k v Hin) as (? & (s1 & ? & ?) & s2 & ? & ?).
        split; [done|]. split; [exists s1|exists s2];
          (split; [apply elem_of_app; by left|done]).
      + simpl. split; [done|]. split; exists s;
          (split; [apply elem_of_app; right; by left|done]).
    - rewrite length_app. simpl.
      pose proof (total_dict_set (Str.strip (Str.lower (Skill.name s)))
        (Skill.mk (Skill.name s) (Skill.category s) 1 (Skill.confidence s))
        m Hold) as Ht. simpl in Ht. lia. }
  unfold skill_step.
  destruct (find_match _ m thr) as [key|]; [|exact Hnew].
  destruct (Str.truthy key); [|exact Hnew].
  split.
  - intros k v' Hin.
    apply elem_of_dict_alter_1 in Hin as [Hin|(v & Hin & ->)].
    + destruct (Hm k v' Hin) as (? & (s1 & ? & ?) & s2 & ? & ?).
      split; [done|]. split; [exists s1|exists s2];
        (split; [apply elem_of_app; by left|done]).
    + destruct (Hm k v Hin) as (? & (s1 & ? & ?) & s2 & ? & ?). simpl.
      split; [lia|]. split.
      * exists s1. split; [apply elem_of_app; by left|done].
      * destruct (py_max_cases (Skill.confidence v) (Skill.confidence s))
          as [E|E]; rewrite E.
        -- exists s2. split; [apply elem_of_app; by left|done].
        -- exists s. split; [apply elem_of_app; right; by left|done].
  - rewrite length_app. simpl.
    pose proof (total_dict_alter
      (λ data, Skill.mk (Skill.name data) (Skill.category data)
                 (Skill.frequency data + 1)
                 (py_max (Skill.confidence data) (Skill.confidence s)))
      key m (λ v, eq_refl)) as Ht. lia.
Qed.

Lemma skill_scan_sound thr skills m S :
  skill_sound m S →
  skill_sound (foldl (skill_step thr) m skills) (S ++ skills).
Proof.
  revert m S. induction skills as [|s skills IH]; intros m S H; simpl.
  - by rewrite app_nil_r.
  - rewrite cons_middle, app_assoc. by apply IH, skill_step_sound.
Qed.

(** X9: for every input and threshold, a merged skill has a frequency of
    at least 1, the name and category of one mention and the confidence of
    one mention; the frequencies add up to at most the number of mentions,
    and there are no more merged skills than mentions. *)
Theorem merge_skills_bounds skill_lists thr :
  let merged := _merge_skills skill_lists thr in
  let mentions := concat skill_lists in
  Forall (λ v, 1 ≤ Skill.frequency v
               ∧ (∃ s, s ∈ mentions ∧ Skill.name v = Skill.name s
                       ∧ Skill.category v = Skill.category s)
               ∧ (∃ s, s ∈ mentions
                       ∧ Skill.confidence v = Skill.confidence s)) merged
  ∧ total_frequency merged ≤ Z.of_nat (length mentions)
  ∧ (length merged ≤ length mentions)%nat.
Proof.
  intros merged mentions.
  assert (skill_sound (skill_map_of skill_lists thr) mentions) as [Hm Htot].
  { unfold skill_map_of. rewrite foldl_concat.
    apply (skill_scan_sound thr mentions [] []). split; [|done].
    intros k v Hin. by apply elem_of_nil in Hin. }
  assert (Hall : Forall (λ v, 1 ≤ Skill.frequency v
               ∧ (∃ s, s ∈ mentions ∧ Skill.name v = Skill.name s
                       ∧ Skill.category v = Skill.category s)
               ∧ (∃ s, s ∈ mentions
                       ∧ Skill.confidence v = Skill.confidence s)) merged).
  { apply Forall_forall. intros v Hv. unfold merged, _merge_skills in Hv.
    rewrite sort_desc_perm in Hv.
    apply list_elem_of_fmap in Hv as ([k v'] & -> & Hin). by apply (Hm k). }
  assert (Htot' : total_frequency merged ≤ Z.of_nat (length mentions)).
  { unfold merged, _merge_skills.
    by rewrite (total_frequency_perm _ _ (sort_desc_perm _ _)). }
  repeat split; [done..|].
  assert (Z.of_nat (length merged) ≤ total_frequency merged).
  { apply total_frequency_length. eapply Forall_impl; [exact Hall|].
    by intros v [? _]. }
  lia.
Qed.

(** X10: two skills whose names have the same canonical key, a key that is
    not empty, are merged for every threshold of the range 0..100: the entry
    has the name and category of the first, frequency 2 and the higher
    confidence. *)
Theorem merge_skills_same_key s1 s2 thr :
  0 ≤ thr ≤ 100 → skill_key s1 ≠ "" → skill_key s2 = skill_key s1 →
  _merge_skills [[s1]; [s2]] thr
  = [Skill.mk (Skill.name s1) (Skill.category s1) 2
              (py_max (Skill.confidence s1) (Skill.confidence s2))].
Proof.
  intros Hthr Hs1 Hkey. unfold _merge_skills, skill_map_of. simpl.
  unfold skill_step at 2. simpl. fold (skill_key s1).
  unfold skill_step, find_match, process.extractOne. simpl.
  fold (skill_key s2) (skill_key s1). rewrite Hkey.
  assert (Qle_bool (inject_Z thr) (fuzz.ratio (skill_key s1) (skill_key s1))
          = true) as ->.
  { apply Qle_bool_iff. rewrite ratio_refl, <- Zle_Qle. lia. }
  simpl. destruct (skill_key s1) as [|a k1] eqn:Hk1; [done|]. simpl.
  by rewrite Ascii.eqb_refl, String.eqb_refl.
Qed.

Lemma merge_skills_same_key_witness :
  _merge_skills [[skill "Python" 1]; [skill " python" (1 # 2)]] 85
  = [Skill.mk "Python" (Some "general") 2 (py_max 1 (1 # 2))].
Proof.
  apply (merge_skills_same_key (skill "Python" 1) (skill " python" (1 # 2)));
    [lia|by vm_compute|by vm_compute].
Defined.

(** ** The fuzzy deduplicator: the score of a match *)

Section ExtractOneBest.
Context (scorer : string → string → Q) (query : string) (cutoff : Q).

Lemma extractOne_go_best choices result key c s i :
  process.extractOne_go scorer query cutoff result key choices
    = Some (c, s, i) →
  (∀ c0 b i0, result = Some (c0, b, i0) → b = scorer query c0) →
  s = scorer query c
  ∧ (∀ x, x ∈ choices → (cutoff <= scorer query x)%Q →
          (scorer query x <= s)%Q)
  ∧ (∀ c0 b i0, result = Some (c0, b, i0) → (b <= s)%Q).
Proof.
  revert result key. induction choices as [|x choices IH];
    intros result key H Hres; simpl in H.
  - subst result. split; [by apply (Hres c s i)|]. split.
    + intros x Hx. by apply elem_of_nil in Hx.
    + intros c0 b i0 [= -> -> ->]. apply Qle_refl.
  - apply IH in H as (Hs & Hbest & Hprev).
    + split; [done|]. split.
      * intros y Hy Hc. apply elem_of_cons in Hy as [->|Hy];
          [|by apply Hbest].
        apply Qle_bool_iff in Hc as Hc'. rewrite Hc' in Hprev. simpl in *.
        destruct result as [[[c0 b] i0]|].
        -- destruct (Qltb b (scorer query x)) eqn:Hb.
           ++ by apply (Hprev x _ key).
           ++ apply Qltb_false in Hb.
              eapply Qle_trans; [exact Hb|]. by apply (Hprev c0 _ i0).
        -- by apply (Hprev x _ key).
      * intros c0 b i0 ->.
        destruct (Qle_bool cutoff (scorer query x)
                  && Qltb b (scorer query x)) eqn:Htake.
        -- apply andb_true_iff in Htake as [_ Hb].
           apply Qltb_true in Hb.
           eapply Qle_trans; [by apply Qlt_le_weak|].
           by apply (Hprev x _ key).
        -- by apply (Hprev c0 _ i0).
    + intros c0 b i0.
      destruct (Qle_bool cutoff (scorer query x) && _).
      * by intros [= <- <- <-].
      * apply Hres.
Qed.
End ExtractOneBest.

(** ** Projects: what the scan does to the store *)

Lemma NoDup_dict_values {V} (m : list (string * V)) :
  NoDup (dict_keys m) →
  (∀ k1 k2 v, (k1, v) ∈ m → (k2, v) ∈ m → k1 = k2) →
  NoDup (dict_values m).
Proof.
  unfold dict_keys, dict_values.
  induction m as [|[k v] m IH]; csimpl; intros Hnd Hinj; [constructor|].
  apply NoDup_cons in Hnd as [Hk Hnd]. apply NoDup_cons. split.
  - intros Hv. apply list_elem_of_fmap in Hv as ([k' v'] & Hv & Hin).
    simpl in Hv. subst v'. apply Hk.
    rewrite (Hinj k k' v); [|by left|by right].
    apply list_elem_of_fmap. by exists (k', v).
  - apply IH; [done|]. intros k1 k2 v0 H1 H2.
    apply (Hinj k1 k2 v0); by right.
Qed.

Lemma list_set_elem_of l t : t ∈ list_set l ↔ t ∈ l.
Proof. unfold list_set. by rewrite elem_of_elements, elem_of_list_to_set. Qed.

Lemma append_assoc (a b c : string) : (a +:+ b) +:+ c = a +:+ b +:+ c.
Proof.
  induction a as [|x a IH]; [done|].
  change (String x ((a +:+ b) +:+ c) = String x (a +:+ b +:+ c)).
  by rewrite IH.
Qed.

Lemma append_empty_r (a : string) : a +:+ "" = a.
Proof.
  induction a as [|x a IH]; [done|].
  change (String x (a +:+ "") = String x a). by rewrite IH.
Qed.

Lemma proj_step_inv thr h scanned st r :
  proj_inv h scanned st → proj_inv h (scanned ++ [r]) (proj_step thr st r).
Proof.
  intros (Hlen & Hobj & Hframe & Hmap & Hnd).
  assert (Hsame : proj_inv h (scanned ++ [r]) st).
  { repeat split; try done.
    - intros i Hi. apply Hframe. intros Hin. apply Hi, elem_of_app. by left.
    - apply elem_of_app. left. by apply (Hmap k).
    - by apply (Hmap k). }
  unfold proj_step. destruct (store st !! r) as [proj|] eqn:Hr; [|done].
  assert (Hins : proj_inv h (scanned ++ [r])
            (ProjState (store st)
               (dict_set (normalized proj) r (project_map st)))).
  { repeat split; simpl; try done.
    - intros i Hi. apply Hframe. intros Hin. apply Hi, elem_of_app. by left.
    - apply elem_of_dict_set in H as [Hin|[= -> ->]].
      + apply elem_of_app. left. by apply (Hmap k).
      + apply elem_of_app. right. by left.
    - apply elem_of_dict_set in H as [Hin|[= -> ->]].
      + by apply (Hmap k).
      + by exists proj.
    - destruct (dict_set_keys (normalized proj) r (project_map st))
        as [[_ ->]|[Hnin ->]]; [done|].
      apply NoDup_app. repeat split; [done| |apply NoDup_singleton].
      intros k Hk Hk'. apply list_elem_of_singleton in Hk' as ->. done. }
  unfold proj_body; cbv zeta. fold (normalized proj).
  destruct (find_match _ _ _) as [key|]; [|exact Hins].
  destruct (Str.truthy key); [|exact Hins].
  destruct (dict_get key _) as [e|] eqn:He; [|exact Hsame].
  apply dict_get_elem_of in He. destruct (Hmap key e He) as [Hscan _].
  destruct (store st !! e) as [existing|] eqn:Hex; [|exact Hsame].
  set (new := Project.mk _ _ _ _).
  assert (Hname : Project.name new = Project.name existing) by done.
  repeat split; simpl.
  - by rewrite length_insert.
  - intros i p Hp. destruct (Hobj i p Hp)
      as (p' & Hp' & Hn & Hu & (more & Hd) & Ht).
    destruct (decide (i = e)) as [->|Hne].
    + exists new. rewrite list_lookup_insert_eq
        by (by eapply lookup_lt_Some).
      assert (p' = existing) as -> by congruence.
      split; [done|]. split; [done|]. split; [done|]. split.
      * unfold new. simpl. destruct (decide _).
        -- exists (more +:+ " | " +:+ Project.description proj).
           by rewrite Hd, append_assoc.
        -- by exists more.
      * intros t Hin. unfold new. simpl.
        apply list_set_elem_of, elem_of_app. left. by apply Ht.
    + exists p'. rewrite list_lookup_insert_ne by congruence.
      repeat split; try done. by exists more.
  - intros i Hi. rewrite list_lookup_insert_ne; [apply Hframe|].
    + intros Hin. apply Hi, elem_of_app. by left.
    + intros ->. apply Hi, elem_of_app. by left.
  - apply elem_of_app. left. by apply (Hmap k).
  - destruct (Hmap k r0 H) as (_ & proj0 & Hp0 & Hk0).
    destruct (decide (r0 = e)) as [->|Hne].
    + exists new. rewrite list_lookup_insert_eq
        by (by eapply lookup_lt_Some).
      split; [done|]. unfold normalized in *. rewrite Hname.
      congruence.
    + exists proj0. by rewrite list_lookup_insert_ne by congruence.
  - done.
Qed.

Lemma proj_scan_inv thr h rs scanned st :
  proj_inv h scanned st →
  proj_inv h (scanned ++ rs) (foldl (proj_step thr) st rs).
Proof.
  revert scanned st. induction rs as [|r rs IH]; intros scanned st H; simpl.
  - by rewrite app_nil_r.
  - rewrite cons_middle, app_assoc. by apply IH, proj_step_inv.
Qed.

Lemma merge_projects_inv h proj_lists thr :
  proj_inv h (concat proj_lists)
           (run_projects thr (ProjState h []) proj_lists).
Proof.
  unfold run_projects. rewrite foldl_concat.
  apply (proj_scan_inv thr h (concat proj_lists) [] (ProjState h [])).
  repeat split; simpl; try done.
  - intros i p Hp. exists p. repeat split; try done.
    exists "". by rewrite append_empty_r.
  - by apply elem_of_nil in H.
  - by apply elem_of_nil in H.
  - constructor.
Qed.

(** X12: [_merge_projects] keeps the number of objects of the store, leaves
    every object that its input does not refer to as it was, and changes of
    the others neither the name nor the url; a description is only
    continued and no technology is lost. *)
Theorem merge_projects_frame h proj_lists thr :
  let h' := (_merge_projects h proj_lists thr).1 in
  length h' = length h
  ∧ (∀ i, i ∉ concat proj_lists → h' !! i = h !! i)
  ∧ ∀ i p, h !! i = Some p →
      ∃ p', h' !! i = Some p'
        ∧ Project.name p' = Project.name p
        ∧ Project.url p' = Project.url p
        ∧ (∃ more, Project.description p' = Project.description p +:+ more)
        ∧ ∀ t, t ∈ Project.technologies p → t ∈ Project.technologies p'.
Proof.
  destruct (merge_projects_inv h proj_lists thr)
    as (Hlen & Hobj & Hframe & _ & _).
  simpl. done.
Qed.

(** X13: the projects [_merge_projects] returns are objects of its input,
    each returned once, and the i-th of them stands under the i-th key, which
    is its normalized name. *)
Theorem merge_projects_result h proj_lists thr :
  let out := (_merge_projects h proj_lists thr).2 in
  NoDup out
  ∧ (∀ r, r ∈ out → r ∈ concat proj_lists)
  ∧ ∀ i k r, merged_keys h proj_lists thr !! i = Some k →
             out !! i = Some r →
             ∃ proj, h !! r = Some proj ∧ normalized proj = k.
Proof.
  destruct (merge_projects_inv h proj_lists thr)
    as (Hlen & Hobj & Hframe & Hmap & Hnd).
  simpl. set (st := run_projects thr (ProjState h []) proj_lists) in *.
  assert (Hh : ∀ k r, (k, r) ∈ project_map st →
                      ∃ proj, h !! r = Some proj ∧ normalized proj = k).
  { intros k r Hin. destruct (Hmap k r Hin) as (_ & p' & Hp' & Hk).
    destruct (h !! r) as [p|] eqn:Hp.
    - destruct (Hobj r p Hp) as (p'' & Hp'' & Hn & _).
      exists p. split; [done|]. unfold normalized in *.
      assert (p'' = p') as -> by congruence. by rewrite <- Hn.
    - apply lookup_ge_None in Hp. apply lookup_lt_Some in Hp'. lia. }
  repeat split.
  - apply NoDup_dict_values; [done|]. intros k1 k2 r H1 H2.
    destruct (Hh k1 r H1) as (p1 & Hp1 & <-).
    destruct (Hh k2 r H2) as (p2 & Hp2 & <-). congruence.
  - intros r Hr. apply list_elem_of_fmap in Hr as ([k r'] & -> & Hin).
    by apply (Hmap k).
  - intros i k r Hk Hr. apply (Hh k r).
    unfold merged_keys, dict_keys in Hk. fold st in Hk.
    unfold dict_values in Hr.
    rewrite list_lookup_fmap in Hk. rewrite list_lookup_fmap in Hr.
    destruct (project_map st !! i) as [[k' r']|] eqn:Hi; [|done].
    simpl in *. injection Hk as ->. injection Hr as ->.
    by eapply list_elem_of_lookup_2.
Qed.

(** ** Projects: first-seen order *)

Lemma find_match_score {V} k (m : list (string * V)) thr key :
  find_match k m thr = Some key →
  key ∈ dict_keys m ∧ (inject_Z thr <= fuzz.ratio k key)%Q.
Proof.
  intros H. split; [by eapply find_match_key|]. revert H.
  unfold find_match, process.extractOne. destruct m as [|p m]; [done|].
  destruct (process.extractOne_go _ _ _ _ _ _) as [[[c s] i]|] eqn:H; [|done].
  intros [= <-].
  destruct (extractOne_go_best _ _ _ _ _ _ _ _ _ H) as (-> & _); [done|].
  by destruct (extractOne_go_choice _ _ _ _ _ _ _ _ _ H) as [?|[_ ?]].
Qed.

Lemma keys_values_named h (m : list (string * ref)) :
  (∀ k r, (k, r) ∈ m → key_of h r = Some k) →
  key_of h <$> dict_values m = Some <$> dict_keys m.
Proof.
  unfold dict_values, dict_keys.
  induction m as [|[k r] m IH]; intros H; csimpl; [done|].
  rewrite (H k r) by apply list_elem_of_here. f_equal.
  apply IH. intros k' r' Hin. apply H. by apply list_elem_of_further.
Qed.

Section FirstSeen.
Context (h : list Project.t) (thr : Z).

Local Abbreviation after := (foldl (proj_step thr) (ProjState h [])).

Lemma key_of_store rs r :
normalized <$> store (after rs) !! r = key_of h r.
Proof.
pose proof (scan_names thr (ProjState h []) rs) as Hn. simpl in Hn.
unfold key_of, normalized.
assert (Project.name <$> store (after rs) !! r = Project.name <$> h !! r)
  as He by (by rewrite <- !list_lookup_fmap, Hn).
destruct (store (after rs) !! r), (h !! r); simpl in *; congruence.
Qed.

(** What one step of the scan does to the map. *)
Lemma proj_step_cases st r :
(store st !! r = None ∧ proj_step thr st r = st)
∨ (∃ proj key,
     store st !! r = Some proj
     ∧ find_match (normalized proj) (project_map st) thr = Some key
     ∧ key ≠ ""
     ∧ project_map (proj_step thr st r) = project_map st)
∨ (∃ proj,
     store st !! r = Some proj
     ∧ (find_match (normalized proj) (project_map st) thr = None
        ∨ find_match (normalized proj) (project_map st) thr = Some "")
     ∧ project_map (proj_step thr st r)
       = dict_set (normalized proj) r (project_map st)).
Proof.
unfold proj_step. destruct (store st !! r) as [proj|] eqn:Hr; [|by left].
right. unfold proj_body; cbv zeta. fold (normalized proj).
destruct (find_match _ _ _) as [key|] eqn:Hm.
- destruct key as [|c key]; simpl.
  + right. exists proj. split; [done|]. split; [by right|done].
  + left. exists proj, (String c key). split; [done|]. split; [done|].
    split; [done|].
    destruct (dict_get _ _) as [e|]; [|done].
    by destruct (store st !! e).
- right. exists proj. split; [done|]. split; [by left|done].
Qed.

(** Every scanned project has its name among the keys, or a key that
  reaches the threshold against its name. *)
Lemma scan_covered rs r k :
r ∈ rs → key_of h r = Some k →
k ∈ dict_keys (project_map (after rs))
∨ ∃ k', k' ∈ dict_keys (project_map (after rs))
        ∧ (inject_Z thr <= fuzz.ratio k k')%Q.
Proof.
revert r k. induction rs as [|r0 rs IH] using rev_ind; intros r k Hr Hk.
{ by apply elem_of_nil in Hr. }
rewrite foldl_snoc. set (st := after rs) in *.
assert (Hmono : ∀ x, x ∈ dict_keys (project_map st) →
                     x ∈ dict_keys (project_map (proj_step thr st r0))).
{ intros x Hx.
  destruct (proj_step_keys thr st r0) as [->|(? & _ & _ & ->)]; [done|].
  apply elem_of_app. by left. }
apply elem_of_app in Hr as [Hr|Hr].
- destruct (IH r k Hr Hk) as [?|(k' & ? & ?)]; [left; auto|].
  right. exists k'. auto.
- apply list_elem_of_singleton in Hr as ->.
  rewrite <- (key_of_store rs) in Hk. fold st in Hk.
  destruct (proj_step_cases st r0)
    as [[Hn _]|[(proj & key & Hp & Hm & _ & ->)|(proj & Hp & _ & ->)]].
  + by rewrite Hn in Hk.
  + rewrite Hp in Hk. injection Hk as <-.
    apply find_match_score in Hm as [? ?]. right. by exists key.
  + rewrite Hp in Hk. injection Hk as <-. left.
    destruct (dict_set_keys (normalized proj) r0 (project_map st))
      as [[? ->]|[_ ->]]; [done|].
    apply elem_of_app. right. apply list_elem_of_here.
Qed.

Hypothesis Hthr : 0 ≤ thr ≤ 100.

Lemma first_named_snoc k rs r r0 :
first_named h k rs = Some r0 → first_named h k (rs ++ [r]) = Some r0.
Proof.
unfold first_named. rewrite filter_app.
by destruct (filter _ rs).
Qed.

(** One more project without empty name keeps the invariant, and leaves the
  map as it is or puts its own entry at the end. *)
Lemma proj_step_first_seen rs r :
key_of h r ≠ Some "" →
first_seen_inv h rs (project_map (after rs)) →
first_seen_inv h (rs ++ [r]) (project_map (after (rs ++ [r])))
∧ project_map (after rs) `prefix_of` project_map (after (rs ++ [r])).
Proof.
intros Hne (Hempty & Hnd & Hfirst).
rewrite foldl_snoc. set (st := after rs) in *.
assert (Hsame : first_seen_inv h (rs ++ [r]) (project_map st)).
{ repeat split; [done..|]. intros k r0 Hin.
  by apply first_named_snoc, Hfirst. }
pose proof (key_of_store rs r) as Hk. fold st in Hk.
destruct (proj_step_cases st r)
  as [[Hn ->]|[(proj & key & Hp & Hm & _ & ->)|(proj & Hp & Hm & ->)]];
  [done..|].
rewrite Hp in Hk. simpl in Hk.
destruct Hm as [Hm|Hm];
  [|by apply find_match_key in Hm].
assert (Hfresh : normalized proj ∉ dict_keys (project_map st)).
{ intros Hin.
  destruct (find_match_own_key (normalized proj) (project_map st) thr)
    as [? Hsome]; [lia|done|]. by rewrite Hm in Hsome. }
rewrite dict_set_fresh by done. split; [|by apply prefix_app_r].
unfold first_seen_inv, dict_keys in *. repeat split.
- rewrite fmap_app. simpl. intros Hin.
  apply elem_of_app in Hin as [Hin|Hin]; [done|].
  apply list_elem_of_singleton in Hin. apply Hne. by rewrite <- Hk, <- Hin.
- rewrite fmap_app. simpl. apply NoDup_app.
  repeat split; [done| |apply NoDup_singleton].
  intros k Hin Hin'. by apply list_elem_of_singleton in Hin' as ->.
- intros k r0 Hin. apply elem_of_app in Hin as [Hin|Hin].
  + by apply first_named_snoc, Hfirst.
  + apply list_elem_of_singleton in Hin. injection Hin as -> ->.
    unfold first_named. rewrite filter_app.
    destruct (filter _ rs) as [|r' l] eqn:Hf.
    * simpl. rewrite filter_cons_True by done. done.
    * assert (r' ∈ filter (λ r', key_of h r' = Some (normalized proj)) rs)
        as Hr' by (rewrite Hf; apply list_elem_of_here).
      apply list_elem_of_filter in Hr' as [Hkey Hr'].
      destruct (scan_covered rs r' _ Hr' Hkey) as [?|(k' & Hin & Hs)];
        [done|].
      destruct (find_match_found (normalized proj) (project_map st) thr
                  k' Hin Hs) as [? Hsome].
      fold st in Hsome. by rewrite Hm in Hsome.
Qed.

Lemma scan_first_seen rs :
(∀ r, r ∈ rs → key_of h r ≠ Some "") →
first_seen_inv h rs (project_map (after rs)).
Proof.
induction rs as [|r rs IH] using rev_ind; intros Hne.
- repeat split; simpl; [apply not_elem_of_nil|constructor|].
  intros k r Hin. by apply elem_of_nil in Hin.
- apply proj_step_first_seen.
  + apply Hne, elem_of_app. right. apply list_elem_of_here.
  + apply IH. intros r' Hr'. apply Hne, elem_of_app. by left.
Qed.

Lemma scan_map_prefix scanned rest :
(∀ r, r ∈ scanned ++ rest → key_of h r ≠ Some "") →
project_map (after scanned) `prefix_of` project_map (after (scanned ++ rest)).
Proof.
induction rest as [|r rest IH] using rev_ind; intros Hne.
- by rewrite app_nil_r.
- rewrite app_assoc in *. etrans.
  + apply IH. intros r' Hr'. apply Hne, elem_of_app. by left.
  + apply proj_step_first_seen.
    * apply Hne, elem_of_app. right. apply list_elem_of_here.
    * apply scan_first_seen. intros r' Hr'. apply Hne, elem_of_app.
      by left.
Qed.

End FirstSeen.

Lemma project_map_named h proj_lists thr k r :
  (k, r) ∈ project_map (run_projects thr (ProjState h []) proj_lists) →
  key_of h r = Some k.
Proof.
  destruct (merge_projects_inv h proj_lists thr)
    as (Hlen & Hobj & _ & Hmap & _).
  intros Hin. destruct (Hmap k r Hin) as (_ & p' & Hp' & Hk).
  unfold key_of. destruct (h !! r) as [p|] eqn:Hp.
  - destruct (Hobj r p Hp) as (p'' & Hp'' & Hn & _).
    assert (p'' = p') as -> by congruence.
    simpl. unfold normalized in *. by rewrite <- Hn, Hk.
  - apply lookup_ge_None in Hp. apply lookup_lt_Some in Hp'. lia.
Qed.

(** C10: the keys of [project_map] after any part of the scan are an
    initial segment of the keys of the result, which holds each key once;
    the i-th returned project stands under the i-th key, its normalized
    name; every scanned project has its name among the keys or was folded
    into a key that reaches the threshold against its name. When no name is
    empty, the projects returned after any part of the scan are an initial
    segment of the result, and the project returned under a key is the
    first scanned project of that name. *)
Theorem merge_projects_first_seen_order h proj_lists threshold scanned rest :
  0 ≤ threshold ≤ 100 →
  concat proj_lists = scanned ++ rest →
  let keys := merged_keys h proj_lists threshold in
  let out := (_merge_projects h proj_lists threshold).2 in
  keys_after h threshold scanned `prefix_of` keys
  ∧ NoDup keys
  ∧ key_of h <$> out = Some <$> keys
  ∧ (∀ r k, r ∈ concat proj_lists → key_of h r = Some k →
       k ∈ keys
       ∨ ∃ k', k' ∈ keys ∧ (inject_Z threshold <= fuzz.ratio k k')%Q)
  ∧ ((∀ r, r ∈ concat proj_lists → key_of h r ≠ Some "") →
     (_merge_projects h [scanned] threshold).2 `prefix_of` out
     ∧ ∀ i r k, out !! i = Some r → keys !! i = Some k →
                first_named h k (concat proj_lists) = Some r).
Proof.
  intros Hthr Hsplit keys out.
  assert (Hrun : run_projects threshold (ProjState h []) proj_lists
                 = foldl (proj_step threshold) (ProjState h [])
                         (scanned ++ rest)).
  { unfold run_projects. by rewrite foldl_concat, Hsplit. }
  assert (Hflat : keys = keys_after h threshold (scanned ++ rest)).
  { unfold keys, merged_keys, keys_after. by rewrite Hrun. }
  split; [|split; [|split; [|split]]].
  - rewrite Hflat. unfold keys_after. rewrite foldl_app.
    apply scan_keys_prefix.
  - rewrite Hflat. unfold keys_after. apply scan_keys_NoDup. constructor.
  - unfold out, keys, merged_keys, _merge_projects. cbn [snd].
    apply keys_values_named. intros k r Hin.
    by eapply project_map_named.
  - intros r k Hr Hk. rewrite Hflat. unfold keys_after.
    rewrite Hsplit in Hr. by apply (scan_covered h threshold _ r k).
  - intros Hne. rewrite Hsplit in Hne. split.
    + unfold out, _merge_projects. simpl. rewrite Hrun.
      unfold run_projects. simpl.
      destruct (scan_map_prefix h threshold Hthr scanned rest Hne)
        as [more ->].
      unfold dict_values. rewrite fmap_app. by apply prefix_app_r.
    + intros i r k Hr Hk. rewrite Hsplit.
      destruct (scan_first_seen h threshold Hthr (scanned ++ rest) Hne)
        as (_ & _ & Hfirst).
      apply Hfirst. rewrite <- Hrun.
      unfold out, _merge_projects, dict_values in Hr. simpl in Hr.
      unfold keys, merged_keys, dict_keys in Hk.
      rewrite list_lookup_fmap in Hr. rewrite list_lookup_fmap in Hk.
      destruct (project_map _ !! i) as [[k' r']|] eqn:Hi; [|done].
      simpl in *. injection Hk as ->. injection Hr as ->.
      by eapply list_elem_of_lookup_2.
Qed.

Lemma merge_projects_first_seen_order_witness :
  let h := three_projects in
  let proj_lists := [[0%nat]; [1%nat; 2%nat]] in
  let keys := merged_keys h proj_lists 85 in
  let out := (_merge_projects h proj_lists 85).2 in
  keys_after h 85 [0%nat; 1%nat] `prefix_of` keys
  ∧ NoDup keys
  ∧ key_of h <$> out = Some <$> keys
  ∧ (∀ r k, r ∈ concat proj_lists → key_of h r = Some k →
       k ∈ keys ∨ ∃ k', k' ∈ keys ∧ (inject_Z 85 <= fuzz.ratio k k')%Q)
  ∧ (_merge_projects h [[0%nat; 1%nat]] 85).2 `prefix_of` out
  ∧ ∀ i r k, out !! i = Some r → keys !! i = Some k →
             first_named h k (concat proj_lists) = Some r.
Proof.
  intros h proj_lists keys out.
  assert (Hne : ∀ r, r ∈ concat proj_lists → key_of h r ≠ Some "").
  { intros r Hr. simpl in Hr.
    repeat (apply elem_of_cons in Hr as [->|Hr]; [by vm_compute|]).
    by apply elem_of_nil in Hr. }
  destruct (merge_projects_first_seen_order h proj_lists 85
              [0%nat; 1%nat] [2%nat]) as (H1 & H2 & H3 & H4 & H5);
    [lia|reflexivity|].
  exact (conj H1 (conj H2 (conj H3 (conj H4 (H5 Hne))))).
Defined.

(** * Further properties of the parser *)

(** ** Substrings *)

Lemma prefix_app_l a b s :
  String.prefix (a +:+ b) s = true → String.prefix a s = true.
Proof.
  revert s. induction a as [|x a IH]; intros s; [by destruct s|].
  change (String.prefix (String x (a +:+ b)) s = true
          → String.prefix (String x a) s = true).
  destruct s as [|y s]; simpl; [done|].
  destruct (ascii_dec x y); [apply IH|done].
Qed.

Lemma contains_cons sub a s :
  Str.contains sub (String a s)
  = String.prefix sub (String a s) || Str.contains sub s.
Proof. done. Qed.

Lemma contains_nil sub : Str.contains sub "" = String.prefix sub "".
Proof.
  change (Str.contains sub "") with (String.prefix sub "" || false).
  apply orb_false_r.
Qed.

(** A text that holds a string holds the beginning of that string. *)
Lemma contains_app_l a b s :
  Str.contains (a +:+ b) s = true → Str.contains a s = true.
Proof.
  induction s as [|y s IH].
  - rewrite !contains_nil. apply prefix_app_l.
  - rewrite !contains_cons, !orb_true_iff.
    intros [H|H]; [left; by eapply prefix_app_l|right; by apply IH].
Qed.

Lemma prefix_contains sub s :
  String.prefix sub s = true → Str.contains sub s = true.
Proof.
  destruct s as [|y s]; [by rewrite contains_nil|].
  rewrite contains_cons. by intros ->.
Qed.

(** A text that holds a string holds the end of that string. *)
Lemma contains_app_r a b s :
  Str.contains (a +:+ b) s = true → Str.contains b s = true.
Proof.
  assert (Hp : ∀ a s, String.prefix (a +:+ b) s = true
                      → Str.contains b s = true).
  { clear. induction a as [|x a IH]; intros s.
    - apply prefix_contains.
    - change (String.prefix (String x (a +:+ b)) s = true
              → Str.contains b s = true).
      destruct s as [|y s]; simpl; [done|].
      destruct (ascii_dec x y); [|done]. intros H.
      apply orb_true_iff. right. by apply IH. }
  induction s as [|y s IH].
  - intros H. rewrite contains_nil in H. by apply (Hp a "").
  - rewrite !contains_cons, !orb_true_iff.
    intros [H|H]; [|right; by apply IH].
    apply orb_true_iff. rewrite <- contains_cons. by apply (Hp a).
Qed.

(** ** Skills *)

(** [_parse_skills] reports exactly the keywords of the taxonomy that
    occur in the lower-cased text, each as a skill with the title-cased
    keyword as name, its category, frequency 1 and confidence 0.9. *)
Theorem parse_skills_found text s :
  s ∈ _parse_skills text ↔
  ∃ category keywords keyword,
    (category, keywords) ∈ skill_keywords ∧ keyword ∈ keywords
    ∧ Str.contains keyword (Str.lower text) = true
    ∧ s = Skill.mk (Str.title keyword) (Some category) 1 float_0_9.
Proof.
  unfold _parse_skills. rewrite list_elem_of_bind. split.
  - intros ([category keywords] & Hs & Hc).
    apply list_elem_of_bind in Hs as (keyword & Hs & Hk).
    exists category, keywords, keyword.
    destruct (Str.contains keyword (Str.lower text));
      [|by apply elem_of_nil in Hs].
    apply list_elem_of_singleton in Hs. done.
  - intros (category & keywords & keyword & Hc & Hk & Hin & ->).
    exists (category, keywords). split; [|done].
    apply list_elem_of_bind. exists keyword. split; [|done].
    rewrite Hin. by left.
Qed.

Lemma parse_skills_sublist text :
  _parse_skills text `sublist_of` all_taxonomy_skills.
Proof.
  unfold _parse_skills, all_taxonomy_skills.
  induction skill_keywords as [|[category keywords] l IH];
    [done|].
  rewrite !bind_cons. apply sublist_app; [|exact IH].
  clear. induction keywords as [|keyword keywords IH]; [done|].
  rewrite !bind_cons. apply sublist_app; [|exact IH].
  destruct (Str.contains _ _); [done|apply sublist_nil_l].
Qed.

(** X14: whatever the text, [_parse_skills] reports no skill name twice and
    at most 50 skills, in the order of the taxonomy. *)
Theorem parse_skills_distinct text :
  _parse_skills text `sublist_of` all_taxonomy_skills
  ∧ NoDup (Skill.name <$> _parse_skills text)
  ∧ (length (_parse_skills text) ≤ 50)%nat.
Proof.
  pose proof (parse_skills_sublist text) as Hsub. split; [done|]. split.
  - assert (Hn : NoDup (Skill.name <$> all_taxonomy_skills))
      by (apply (bool_decide_unpack _); by vm_compute).
    eapply sublist_NoDup; [exact Hn|]. by apply fmap_sublist.
  - apply sublist_length in Hsub.
    change (length all_taxonomy_skills) with 50%nat in Hsub. done.
Qed.

(** X15: keywords are looked for as substrings, so a keyword that is the
    beginning of another one is reported with it: a text with the skill
    Javascript has the skill Java, and one with Github Actions has Git. *)
Theorem parse_skills_substring text :
  (Skill.mk "Javascript" (Some "programming") 1 float_0_9
     ∈ _parse_skills text →
   Skill.mk "Java" (Some "programming") 1 float_0_9 ∈ _parse_skills text)
  ∧ (Skill.mk "Github Actions" (Some "tools") 1 float_0_9
       ∈ _parse_skills text →
     Skill.mk "Git" (Some "tools") 1 float_0_9 ∈ _parse_skills text).
Proof.
  assert (Hkw : ∀ name category,
    Skill.mk name (Some category) 1 float_0_9 ∈ _parse_skills text →
    ∃ keyword, Str.title keyword = name
               ∧ keyword ∈ skill_keywords.*2 ≫= id
               ∧ Str.contains keyword (Str.lower text) = true).
  { intros name category H.
    apply parse_skills_found in H as (c & ks & k & Hc & Hk & Hin & Heq).
    injection Heq as -> _. exists k. split; [done|]. split; [|done].
    apply list_elem_of_bind. exists ks. split; [done|].
    apply list_elem_of_fmap. by exists (c, ks). }
  assert (Hinv : ∀ keyword name, keyword ∈ skill_keywords.*2 ≫= id →
    Str.title keyword = name →
    bool_decide (name = "Javascript")
    || bool_decide (name = "Github Actions") = true →
    keyword = Str.lower name).
  { intros keyword name Hin <- Hn. vm_compute in Hin.
    repeat (apply elem_of_cons in Hin as [->|Hin];
            [by vm_compute in Hn; vm_compute|]).
    by apply elem_of_nil in Hin. }
  split; intros H; apply Hkw in H as (keyword & Ht & Hin & Hc);
    apply parse_skills_found.
  - rewrite (Hinv keyword "Javascript" Hin Ht eq_refl) in Hc.
    exists "programming", ["python"; "javascript"; "java"; "c++"; "c#";
      "ruby"; "php"; "swift"; "kotlin"; "go"; "rust"; "typescript"], "java".
    split; [by left|]. split; [by do 2 right; left|]. split; [|done].
    apply (contains_app_l "java" "script"). exact Hc.
  - rewrite (Hinv keyword "Github Actions" Hin Ht eq_refl) in Hc.
    exists "tools", ["git"; "jira"; "figma"; "postman"; "jenkins";
      "github actions"], "git".
    split; [by do 5 right; left|]. split; [by left|]. split; [|done].
    apply (contains_app_l "git" "hub actions"). exact Hc.
Qed.

Lemma parse_skills_substring_witness :
  let text := "Skills: JavaScript, GitHub Actions" in
  Skill.mk "Java" (Some "programming") 1 float_0_9 ∈ _parse_skills text
  ∧ Skill.mk "Git" (Some "tools") 1 float_0_9 ∈ _parse_skills text.
Proof.
  intros text. split.
  - apply (proj1 (parse_skills_substring text)). vm_compute.
    repeat constructor.
  - apply (proj2 (parse_skills_substring text)). vm_compute.
    repeat constructor.
Defined.

(** ** Section headers *)

Section Headers.
Import re.

Lemma prefix_empty s : String.prefix "" s = true.
Proof. by destruct s. Qed.

(** A keyword in lower case that matches at a position, whatever the
    case there, starts the lower-cased rest of the text. *)
Lemma exec_ilit_prefix kw :
  Str.lower kw = kw →
  ∀ k c c', exec (ilit kw) k c = Some c' →
    String.prefix kw (Str.lower (string_of_list_ascii (rest c))) = true.
Proof.
  induction kw as [|ch kw IH]; intros Hlow k c c' H.
  - apply prefix_empty.
  - simpl in Hlow. injection Hlow as Hch Hkw.
    assert (Hhead : ∀ k', exec (Class (ieq ch)) k' c = Some c' →
              ∃ a t, rest c = a :: t ∧ ch = Str.lower_char a
                     ∧ k' (Cursor (Some a) t (S (idx c)) (span1 c))
                       = Some c').
    { intros k'. simpl. destruct (rest c) as [|a t]; [done|].
      destruct (ieq ch a) eqn:Ha; [|done]. intros Hk.
      exists a, t. split; [done|]. split; [|done].
      unfold ieq in Ha. apply Ascii.eqb_eq in Ha. congruence. }
    destruct kw as [|ch' kw'].
    + apply Hhead in H as (a & t & -> & -> & _). simpl.
      destruct (ascii_dec _ _); [apply prefix_empty|done].
    + change (exec (Class (ieq ch)) (exec (ilit (String ch' kw')) k) c
              = Some c') in H.
      apply Hhead in H as (a & t & -> & -> & H). simpl.
      destruct (ascii_dec _ _); [|done].
      by apply (IH Hkw) in H.
Qed.

(** A pattern that starts with one of the keywords [kws] finds nothing in
    a text that holds none of them. *)
Lemma search_go_no_keyword r (kws : list string) text pv rs i :
  (∀ k c c', exec r k c = Some c' →
     ∃ kw, kw ∈ kws
       ∧ String.prefix kw (Str.lower (string_of_list_ascii (rest c)))
         = true) →
  (∀ kw, kw ∈ kws →
     Str.contains kw (Str.lower (string_of_list_ascii rs)) = false) →
  search_go r text pv rs i = None.
Proof.
  intros Hr. revert pv i. induction rs as [|a t IH]; intros pv i Hkws;
    simpl.
  - destruct (exec r Some _) as [c'|] eqn:He; [|done].
    apply Hr in He as (kw & Hkw & Hp). apply prefix_contains in Hp.
    destruct (eq_true_false_abs _ Hp (Hkws kw Hkw)).
  - destruct (exec r Some _) as [c'|] eqn:He.
    + apply Hr in He as (kw & Hkw & Hp). apply prefix_contains in Hp.
      destruct (eq_true_false_abs _ Hp (Hkws kw Hkw)).
    + apply IH. intros kw Hkw. specialize (Hkws kw Hkw).
      change (Str.contains kw
                (String (Str.lower_char a)
                        (Str.lower (string_of_list_ascii t))) = false)
        in Hkws.
      rewrite contains_cons in Hkws.
      by apply orb_false_iff in Hkws as [_ ?].
Qed.

Lemma search_no_keyword r (kws : list string) text :
  well_formed r = true →
  (∀ k c c', exec r k c = Some c' →
     ∃ kw, kw ∈ kws
       ∧ String.prefix kw (Str.lower (string_of_list_ascii (rest c)))
         = true) →
  (∀ kw, kw ∈ kws → Str.contains kw (Str.lower text) = false) →
  search r text = Return None.
Proof.
  intros Hwf Hr Hkws. unfold search, compile. rewrite Hwf. simpl.
  f_equal. apply (search_go_no_keyword r kws); [done|].
  by rewrite string_of_list_ascii_of_string.
Qed.

Lemma exec_seq a b k c : exec (Seq a b) k c = exec a (exec b k) c.
Proof. done. Qed.

(** A pattern that passes the check of the compiler is searched without
    an exception. *)
Lemma search_well_formed r text :
  well_formed r = true →
  search r text
  = Return (search_go r text None (list_ascii_of_string text) 0%nat).
Proof. intros Hwf. unfold search, compile. by rewrite Hwf. Qed.
End Headers.

Lemma long_lines_long section line :
  line ∈ long_lines section → (10 < String.length line)%nat.
Proof.
  unfold long_lines. intros H. by apply list_elem_of_filter in H as [[_ ?] _].
Qed.

(** X16: for every text (of code points below 256, as everywhere here)
    [_parse_education] never raises; every entry it builds has the
    placeholder institution, a degree of more than 10 characters and no
    other field; a text without the word "education", in any case, gives no
    entry. *)
Theorem parse_education_entries text :
  ∃ education,
    _parse_education text = Return education
    ∧ Forall (λ e, Education.institution e = "Parsed from resume"
                   ∧ (10 < String.length (Education.degree e))%nat
                   ∧ Education.location e = None
                   ∧ Education.graduation_date e = None
                   ∧ Education.gpa e = None) education
    ∧ (Str.contains "education" (Str.lower text) = false → education = []).
Proof.
  unfold _parse_education.
  destruct (re.search edu_pattern text) as [m|e] eqn:Hs;
    [|by rewrite search_well_formed in Hs].
  destruct m as [m|]; simpl.
  - eexists. split; [done|]. split.
    + apply Forall_fmap, Forall_forall. intros line Hl. simpl.
      repeat split. by eapply long_lines_long.
    + intros Hno. rewrite (search_no_keyword _ ["education"]) in Hs;
        [done|done| |].
      * intros k c c' H. unfold edu_pattern in H. cbn [re.seq] in H.
        rewrite exec_seq in H. apply exec_ilit_prefix in H; [|done].
        exists "education". split; [by left|done].
      * intros kw Hkw. by apply list_elem_of_singleton in Hkw as ->.
  - exists []. done.
Qed.

Lemma parse_education_entries_witness :
  let nl := String newline "" in
  let text := "EDUCATION" +:+ nl +:+ "BSc Computer Science, MIT" +:+ nl
              +:+ "2019" +:+ nl +:+ "Skills: Go" in
  (∃ e, _parse_education text = Return [e]
        ∧ Education.degree e = "BSc Computer Science, MIT"
        ∧ Education.institution e = "Parsed from resume"
        ∧ (10 < String.length (Education.degree e))%nat
        ∧ Education.location e = None
        ∧ Education.graduation_date e = None
        ∧ Education.gpa e = None)
  ∧ _parse_education "Hobbies: chess" = Return [].
Proof.
  intros nl text. split.
  - destruct (parse_education_entries text) as (ed & Hed & Hall & _).
    assert (Hrun : _parse_education text
                   = Return [Education.mk "BSc Computer Science, MIT"
                               "Parsed from resume" None None None])
      by (by vm_compute).
    rewrite Hrun in Hed. injection Hed as <-.
    apply Forall_cons in Hall as [He _].
    eexists. split; [exact Hrun|]. split; [done|]. exact He.
  - destruct (parse_education_entries "Hobbies: chess")
      as (ed & Hed & _ & Hnone).
    rewrite Hed. f_equal. apply Hnone. by vm_compute.
Defined.

(** X17: for every text (of code points below 256, as everywhere here)
    [_parse_projects] never raises; every project it builds comes from a
    line of more than 10 characters, of which its name and its description
    are parts, and has neither technologies nor url; a text without the word
    "projects", in any case, gives no project. *)
Theorem parse_projects_entries text :
  ∃ projects,
    _parse_projects text = Return projects
    ∧ Forall (λ p, Project.technologies p = [] ∧ Project.url p = None
                   ∧ ∃ line, (10 < String.length line)%nat
                       ∧ p = new_project line) projects
    ∧ (Str.contains "projects" (Str.lower text) = false → projects = []).
Proof.
  unfold _parse_projects.
  destruct (re.search proj_pattern text) as [m|e] eqn:Hs;
    [|by rewrite search_well_formed in Hs].
  destruct m as [m|]; simpl.
  - eexists. split; [done|]. split.
    + apply Forall_fmap, Forall_forall. intros line Hl. simpl.
      repeat split. exists line. split; [by eapply long_lines_long|done].
    + intros Hno. rewrite (search_no_keyword _ ["projects"]) in Hs;
        [done|done| |].
      * intros k c c' H. unfold proj_pattern in H. cbn [re.seq] in H.
        rewrite exec_seq in H. apply exec_ilit_prefix in H; [|done].
        exists "projects". split; [by left|done].
      * intros kw Hkw. by apply list_elem_of_singleton in Hkw as ->.
  - exists []. done.
Qed.

Lemma parse_projects_entries_witness :
  let nl := String newline "" in
  let text := "Projects" +:+ nl +:+ "Chat App - websocket chat in Go" +:+ nl
              +:+ "short" +:+ nl +:+ "Education" in
  (∃ p, _parse_projects text = Return [p]
        ∧ Project.name p = "Chat App"
        ∧ Project.description p = "websocket chat in Go"
        ∧ Project.technologies p = [] ∧ Project.url p = None
        ∧ ∃ line, (10 < String.length line)%nat ∧ p = new_project line)
  ∧ _parse_projects "Hobbies: chess" = Return [].
Proof.
  intros nl text. split.
  - destruct (parse_projects_entries text) as (ps & Hps & Hall & _).
    assert (Hrun : _parse_projects text
                   = Return [Project.mk "Chat App" "websocket chat in Go"
                               [] None])
      by (by vm_compute).
    rewrite Hrun in Hps. injection Hps as <-.
    apply Forall_cons in Hall as [Hp _].
    eexists. split; [exact Hrun|]. split; [done|]. split; [done|]. exact Hp.
  - destruct (parse_projects_entries "Hobbies: chess")
      as (ps & Hps & _ & Hnone).
    rewrite Hps. f_equal. apply Hnone. by vm_compute.
Defined.

(** ** Experience *)

Lemma bind_Return {A B} (a : A) (f : A → result B) : Return a ≫= f = f a.
Proof. done. Qed.

Lemma exp_line_undated st line :
  Forall undated st.1 → (∀ e, st.2 = Some e → undated e) →
  ∃ st', exp_line st line = Return st'
         ∧ Forall undated st'.1 ∧ (∀ e, st'.2 = Some e → undated e).
Proof.
  intros H1 H2. unfold exp_line.
  destruct (negb (Str.truthy (Str.strip line))); [by exists st|].
  rewrite search_well_formed by done. simpl.
  destruct (re.search_go _ _ _ _ _) as [m|], st.2 as [current_exp|] eqn:Hc;
    eexists; (split; [done|]); simpl.
  - split.
    + apply Forall_app. split; [done|]. constructor; [by apply H2|done].
    + by intros e [= <-].
  - split; [done|]. by intros e [= <-].
  - split; [done|]. intros e [= <-].
    destruct (H2 current_exp eq_refl) as (? & ? & ? & ? & ?). by repeat split.
  - split; [done|]. by rewrite Hc.
Qed.

Lemma exp_lines_undated lines st :
  Forall undated st.1 → (∀ e, st.2 = Some e → undated e) →
  ∃ st', exp_lines st lines = Return st'
         ∧ Forall undated st'.1 ∧ (∀ e, st'.2 = Some e → undated e).
Proof.
  revert st. induction lines as [|line lines IH]; intros st H1 H2; simpl.
  - by exists st.
  - destruct (exp_line_undated st line H1 H2) as (st' & -> & H1' & H2').
    simpl. by apply IH.
Qed.

Lemma exp_section_undated section :
  ∃ st, exp_lines ([], None) (Str.split newline section) = Return st
        ∧ Forall undated (st.1 ++ option_list st.2).
Proof.
  destruct (exp_lines_undated (Str.split newline section) ([], None))
    as (st & Hst & H1 & H2); [done..|].
  exists st. split; [done|]. apply Forall_app. split; [done|].
  destruct st.2 as [e|]; simpl; [|done]. constructor; [by apply H2|done].
Qed.

(** X18: for every text (of code points below 256, as everywhere here)
    [_parse_experience] never raises; every entry it builds is without
    dates, location and technologies and is not current; a text with none of
    "experience", "work history" and "employment", in any case, gives no
    entry. *)
Theorem parse_experience_entries text :
  ∃ experiences,
    _parse_experience text = Return experiences
    ∧ Forall undated experiences
    ∧ ((∀ kw, kw ∈ exp_headers →
              Str.contains kw (Str.lower text) = false) →
       experiences = []).
Proof.
  unfold _parse_experience, exp_patterns.
  set (p1 := re.seq [re.alt _; _; _]). set (p2 := re.seq [re.ilit _; _; _]).
  assert (Hp1 : ∀ k c c', re.exec p1 k c = Some c' →
    ∃ kw, kw ∈ exp_headers
      ∧ String.prefix kw (Str.lower (string_of_list_ascii (re.rest c)))
        = true).
  { intros k c c' H. unfold p1 in H. cbn [re.seq re.alt] in H.
    rewrite exec_seq in H. cbn [re.exec] in H.
    destruct (re.exec (re.ilit "experience") _ c) as [c1|] eqn:H1.
    { apply exec_ilit_prefix in H1; [|done].
      exists "experience". split; [by left|done]. }
    destruct (re.exec (re.ilit "work history") _ c) as [c2|] eqn:H2.
    { apply exec_ilit_prefix in H2; [|done].
      exists "work history". split; [by right; left|done]. }
    apply exec_ilit_prefix in H; [|done].
    exists "employment". split; [by do 2 right; left|done]. }
  assert (Hp2 : ∀ k c c', re.exec p2 k c = Some c' →
    ∃ kw, kw ∈ ["professional experience"]
      ∧ String.prefix kw (Str.lower (string_of_list_ascii (re.rest c)))
        = true).
  { intros k c c' H. unfold p2 in H. cbn [re.seq] in H.
    rewrite exec_seq in H. apply exec_ilit_prefix in H; [|done].
    exists "professional experience". split; [by left|done]. }
  assert (Hnone : (∀ kw, kw ∈ exp_headers →
              Str.contains kw (Str.lower text) = false) →
            re.search p1 text = Return None
            ∧ re.search p2 text = Return None).
  { intros Hno. split.
    - by apply (search_no_keyword p1 exp_headers).
    - apply (search_no_keyword p2 ["professional experience"]); [done..|].
      intros kw Hkw. apply list_elem_of_singleton in Hkw as ->.
      apply not_true_iff_false. intros Hc.
      apply (contains_app_r "professional " "experience") in Hc.
      rewrite Hno in Hc; [done|by left]. }
  rewrite (search_well_formed p1), (search_well_formed p2) in Hnone by done.
  cbn [exp_search]. rewrite (search_well_formed p1), bind_Return by done.
  destruct (re.search_go p1 _ _ _ _) as [m|] eqn:H1.
  - destruct (exp_section_undated (default "" (re.group1 m)))
      as (st & -> & Hst). rewrite bind_Return.
    eexists. split; [done|]. split; [done|].
    intros Hno. by destruct (Hnone Hno) as [? _].
  - rewrite (search_well_formed p2), bind_Return by done.
    destruct (re.search_go p2 _ _ _ _) as [m|] eqn:H2.
    + destruct (exp_section_undated (default "" (re.group1 m)))
        as (st & -> & Hst). rewrite bind_Return.
      eexists. split; [done|]. split; [done|].
      intros Hno. by destruct (Hnone Hno) as [_ ?].
    + by exists [].
Qed.

Lemma parse_experience_entries_witness :
  let nl := String newline "" in
  let text := "Work History" +:+ nl +:+ "Engineer | Acme | 2019" +:+ nl
              +:+ "Built the billing service" +:+ nl +:+ "Skills: Go" in
  (∃ e, _parse_experience text = Return [e]
        ∧ Experience.title e = "Engineer" ∧ Experience.company e = "Acme"
        ∧ Experience.description e = ["Built the billing service"]
        ∧ undated e)
  ∧ _parse_experience "Hobbies: chess" = Return [].
Proof.
  intros nl text. split.
  - destruct (parse_experience_entries text) as (es & Hes & Hall & _).
    assert (Hrun : _parse_experience text
                   = Return [Experience.mk "Engineer" "Acme" None None None
                               false ["Built the billing service"] []])
      by (by vm_compute).
    rewrite Hrun in Hes. injection Hes as <-.
    apply Forall_cons in Hall as [Hundated _].
    eexists. split; [exact Hrun|]. by repeat split.
  - destruct (parse_experience_entries "Hobbies: chess")
      as (es & Hes & _ & Hnone).
    rewrite Hes. f_equal. apply Hnone. intros kw Hkw.
    repeat (apply elem_of_cons in Hkw as [->|Hkw]; [by vm_compute|]).
    by apply elem_of_nil in Hkw.
Defined.

(** ** The whole extraction *)

Lemma parse_text_raises text :
  parse_text text = Raise (re_error "nothing to repeat").
Proof. done. Qed.

(** X19: [parse_resume] never returns a resume, and what it raises is
    decided by the path and the reading library alone: a path that ends in
    ".pdf" or, failing that, in ".docx" is read, and an exception of the
    reading library is passed on; every text that has been read makes the
    extraction raise the [re.error] of the phone pattern; every other path
    raises the [ValueError]. *)
Theorem parse_resume_always_raises {E}
    (pdf_pages : string → E + list (option string))
    (docx_paragraphs : string → E + list string) file_path :
  parse_resume pdf_pages docx_paragraphs file_path
  = inl (if Str.endswith file_path ".pdf" then
           match pdf_pages file_path with
           | inl e => LibraryError e
           | inr _ => CoreError (re_error "nothing to repeat")
           end
         else if Str.endswith file_path ".docx" then
           match docx_paragraphs file_path with
           | inl e => LibraryError e
           | inr _ => CoreError (re_error "nothing to repeat")
           end
         else ValueError "Unsupported file format").
Proof.
  unfold parse_resume, _extract_from_pdf, _extract_from_docx.
  destruct (Str.endswith file_path ".pdf").
  - destruct (pdf_pages file_path) as [e|pages]; [done|].
    by rewrite parse_text_raises.
  - destruct (Str.endswith file_path ".docx"); [|done].
    destruct (docx_paragraphs file_path) as [e|paragraphs]; [done|].
    by rewrite parse_text_raises.
Qed.

(** ** The second experience pattern *)

Section Fallback.
Import re.

(** A keyword in lower case that starts the lower-cased rest of the text
    is matched, and the continuation decides. *)
Lemma exec_ilit_match kw :
  Str.lower kw = kw →
  ∀ k pv rs i g,
    String.prefix kw (Str.lower (string_of_list_ascii rs)) = true →
    ∃ c, exec (ilit kw) k (Cursor pv rs i g) = k c.
Proof.
  induction kw as [|ch kw IH]; intros Hlow k pv rs i g Hp.
  - by eexists.
  - simpl in Hlow. injection Hlow as Hch Hkw.
    destruct rs as [|a t]; [done|]. simpl in Hp.
    destruct (ascii_dec ch (Str.lower_char a)) as [Ha|]; [|done].
    assert (ieq ch a = true) as Hieq.
    { unfold ieq. rewrite Hch, Ha. apply Ascii.eqb_refl. }
    destruct kw as [|ch' kw'].
    + simpl. rewrite Hieq. by eexists.
    + change (exec (ilit (String ch (String ch' kw'))) k ?c)
        with (exec (Class (ieq ch)) (exec (ilit (String ch' kw')) k) c).
      simpl exec at 1. simpl rest. rewrite Hieq.
      by apply (IH Hkw).
Qed.

Lemma lazy_go_total k pv rs i g :
  (∀ pv' i', k (Cursor pv' [] i' g) ≠ None) → lazy_go k pv rs i g ≠ None.
Proof.
  intros Hend. revert pv i. induction rs as [|a t IH]; intros pv i; simpl.
  - specialize (Hend pv i). by destruct (k _).
  - destruct (k _); [done|apply IH].
Qed.

Lemma exec_alt a b k c :
  exec (Alt a b) k c
  = match exec a k c with Some c' => Some c' | None => exec b k c end.
Proof. done. Qed.

Lemma exec_alt_r a b k c : exec b k c ≠ None → exec (Alt a b) k c ≠ None.
Proof. simpl. by destruct (exec a k c). Qed.

Lemma exec_group_lazy k c :
  exec (Group LazyAny) k c
  = lazy_go (λ c', k (Cursor (prev c') (rest c') (idx c')
                        (Some (idx c, idx c'))))
            (prev c) (rest c) (idx c) (span1 c).
Proof. done. Qed.

(** What follows the header in the section patterns matches at every
    position: at the latest, [$] matches at the end of the text. *)
Lemma exec_section_total a b c0 cur :
  exec (Seq (Group LazyAny) (Alt a (Alt b (Alt c0 Dollar)))) Some cur
  ≠ None.
Proof.
  rewrite exec_seq, exec_group_lazy.
  apply lazy_go_total. intros pv' i'. cbv beta.
  by do 3 apply exec_alt_r.
Qed.

Lemma search_go_found r text l : ∀ pv rs i,
  (∀ pv' i', exec r Some (Cursor pv' rs i' None) ≠ None) →
  search_go r text pv (l ++ rs) i ≠ None.
Proof.
  induction l as [|a l IH]; intros pv rs i Hr; simpl.
  - destruct rs as [|a t]; simpl.
    + specialize (Hr pv i). by destruct (exec r Some _).
    + specialize (Hr pv i). by destruct (exec r Some _).
  - destruct (exec r Some _); [done|]. by apply IH.
Qed.

Lemma search_go_where r text rs : ∀ pv i,
  search_go r text pv rs i ≠ None →
  ∃ l rs' pv' i', rs = l ++ rs'
                  ∧ exec r Some (Cursor pv' rs' i' None) ≠ None.
Proof.
  induction rs as [|a t IH]; intros pv i; simpl.
  - intros H. exists [], [], pv, i. split; [done|].
    by destruct (exec r Some _).
  - destruct (exec r Some (Cursor pv (a :: t) i None)) eqn:He.
    + intros _. exists [], (a :: t), pv, i. split; [done|]. by rewrite He.
    + intros H. apply IH in H as (l & rs' & pv' & i' & -> & H).
      by exists (a :: l), rs', pv', i'.
Qed.

Lemma prefix_app_drop a b : ∀ rs,
  String.prefix (a +:+ b) (Str.lower (string_of_list_ascii rs)) = true →
  String.prefix b
    (Str.lower (string_of_list_ascii (drop (String.length a) rs))) = true.
Proof.
  induction a as [|x a IH]; intros rs; [done|].
  change (String x a +:+ b) with (String x (a +:+ b)).
  destruct rs as [|y rs]; [done|]. simpl.
  destruct (ascii_dec _ _); [apply IH|done].
Qed.
End Fallback.

(** X20: the second pattern of [_parse_experience] never contributes:
    wherever "professional experience" can be found, the first pattern finds
    "experience", so the result is that of the first pattern alone. *)
Theorem parse_experience_first_pattern text :
  _parse_experience text = exp_search (take 1 exp_patterns) text.
Proof.
  unfold _parse_experience, exp_patterns.
  set (p1 := re.seq [re.alt _; _; _]). set (p2 := re.seq [re.ilit _; _; _]).
  cbn [take exp_search].
  rewrite (search_well_formed p1), !bind_Return by done.
  destruct (re.search_go p1 _ _ _ _) as [m|] eqn:H1; [done|].
  rewrite (search_well_formed p2), bind_Return by done.
  destruct (re.search_go p2 _ _ _ _) as [m|] eqn:H2; [|done].
  exfalso.
  destruct (search_go_where p2 text (list_ascii_of_string text) None 0%nat)
    as (l & rs' & pv' & i' & Hrs & He); [by rewrite H2|].
  destruct (re.exec p2 Some _) as [c'|] eqn:He'; [|done]. clear He.
  unfold p2 in He'. cbn [re.seq] in He'. rewrite exec_seq in He'.
  apply exec_ilit_prefix in He'; [|done]. simpl re.rest in He'.
  apply (prefix_app_drop "professional " "experience") in He'.
  apply (search_go_found p1 text (l ++ take 13 rs') None
           (drop 13 rs') 0%nat); [|by rewrite <- app_assoc, take_drop, <- Hrs].
  intros pv'' i''. unfold p1. cbn [re.seq re.alt].
  rewrite exec_seq, exec_alt.
  destruct (exec_ilit_match "experience" eq_refl
              (re.exec (re.Seq (re.Group re.LazyAny)
                 (re.Alt (re.ilit "education")
                    (re.Alt (re.ilit "skills")
                       (re.Alt (re.ilit "projects") re.Dollar)))) Some)
              pv'' (drop 13 rs') i'' None He') as [c Hc].
  rewrite Hc.
  pose proof (exec_section_total (re.ilit "education") (re.ilit "skills")
                (re.ilit "projects") c) as Ht.
  by destruct (re.exec _ Some c).
Qed.

(** ** Parsed experience in the merger *)

(** X21: entries as the parser builds them, without start date and not
    current, all have the sort key [(False, "0000")]: the merger returns
    them in the order in which the scan met them, the later entries of every
    signature left out. *)
Theorem merge_experience_undated exp_lists :
  Forall undated (concat exp_lists) →
  _merge_experience exp_lists = (collect_experience exp_lists).2
  ∧ _merge_experience exp_lists `sublist_of` concat exp_lists.
Proof.
  intros Hall.
  pose proof (collect_experience_sublist exp_lists) as Hsub.
  assert (Heq : _merge_experience exp_lists
                = (collect_experience exp_lists).2).
  { unfold _merge_experience. apply sort_desc_fixed.
    assert (Hkeys : Forall (λ e, exp_sort_key e = (false, "0000"))
                      (collect_experience exp_lists).2).
    { apply Forall_forall. intros e He.
      rewrite Forall_forall in Hall.
      destruct (Hall e) as (Hs & _ & Hc & _);
        [by eapply elem_of_sublist|].
      unfold exp_sort_key. by rewrite Hs, Hc. }
    revert Hkeys. generalize (collect_experience exp_lists).2. clear.
    induction 1 as [|e l He Hl IH]; constructor; [done|].
    eapply Forall_impl; [exact Hl|]. intros e' He'.
    unfold not_below, exp_key_lt. by rewrite He, He'. }
  split; [done|]. by rewrite Heq.
Qed.

Lemma merge_experience_undated_witness :
  let a := experience "Engineer 2020" "Acme" None false in
  let b := experience "Intern 2018" "Unknown" None false in
  _merge_experience [[a]; [b; a]] = (collect_experience [[a]; [b; a]]).2
  ∧ _merge_experience [[a]; [b; a]] `sublist_of` concat [[a]; [b; a]].
Proof.
  intros a b. apply (merge_experience_undated [[a]; [b; a]]).
  by repeat constructor.
Defined.

(** ** Two projects of one name *)

(** X22: of two projects whose names have the same normalized key, a key
    that is not empty, [_merge_projects] returns the first one only, for
    every threshold of the range 0..100, and writes into it: the description
    of the second is appended after [" | "] unless the two descriptions are
    equal, and the technologies become those of both, each once, in some
    order. The second object is left as it is. *)
Theorem merge_projects_same_key p1 p2 thr :
  0 ≤ thr ≤ 100 → normalized p1 ≠ "" → normalized p2 = normalized p1 →
  ∃ technologies,
    _merge_projects [p1; p2] [[0%nat]; [1%nat]] thr
    = ([ Project.mk (Project.name p1)
           (if decide (Project.description p2 ≠ Project.description p1)
            then Project.description p1 +:+ " | " +:+ Project.description p2
            else Project.description p1)
           technologies (Project.url p1);
         p2 ],
       [0%nat])
    ∧ NoDup technologies
    ∧ ∀ t, t ∈ technologies
           ↔ t ∈ Project.technologies p1 ∨ t ∈ Project.technologies p2.
Proof.
  intros Hthr Hk1 Hkey.
  exists (list_set (Project.technologies p1 ++ Project.technologies p2)).
  split; [|split].
  - unfold _merge_projects, run_projects. simpl.
    unfold proj_step. simpl. unfold proj_body at 2. simpl.
    fold (normalized p1).
    unfold proj_body, find_match, process.extractOne. simpl.
    fold (normalized p2) (normalized p1). rewrite Hkey.
    assert (Qle_bool (inject_Z thr)
              (fuzz.ratio (normalized p1) (normalized p1)) = true) as ->.
    { apply Qle_bool_iff. rewrite ratio_refl, <- Zle_Qle. lia. }
    simpl. destruct (normalized p1) as [|a k1] eqn:Hn; [done|]. simpl.
    by rewrite Ascii.eqb_refl, String.eqb_refl.
  - unfold list_set. apply NoDup_elements.
  - intros t. by rewrite list_set_elem_of, elem_of_app.
Qed.

Lemma merge_projects_same_key_witness :
  let p1 := Project.mk "Portfolio Site" "built with React" ["React"] None in
  let p2 := Project.mk "portfolio site" "added dark mode" ["CSS"] None in
  ∃ technologies,
    _merge_projects [p1; p2] [[0%nat]; [1%nat]] 85
    = ([ Project.mk "Portfolio Site" "built with React | added dark mode"
           technologies None;
         p2 ],
       [0%nat])
    ∧ NoDup technologies
    ∧ ∀ t, t ∈ technologies ↔ t ∈ ["React"] ∨ t ∈ ["CSS"].
Proof.
  intros p1 p2.
  apply (merge_projects_same_key p1 p2 85); [lia|by vm_compute|by vm_compute].
Defined.

(** ** Witnesses for the skills *)

Lemma merge_skills_aggregates_witness :
  let lists := [[skill "Python" 1; skill "React" (1 # 2)];
                [skill "python" (1 # 2); skill "Vue" 1]] in
  (∀ v, v ∈ _merge_skills lists 85 →
        ∃ k, aggregates v (contributors 85 (concat lists) k))
  ∧ (∀ k, k ∈ (landings 85 [] (concat lists)).*1 →
          ∃ v, v ∈ _merge_skills lists 85
               ∧ aggregates v (contributors 85 (concat lists) k)).
Proof.
  intros lists. apply (merge_skills_aggregates lists 85); [lia| |].
  - intros s Hs. simpl in Hs.
    repeat (apply elem_of_cons in Hs as [->|Hs]; [by vm_compute|]).
    by apply elem_of_nil in Hs.
  - intros s s' Hs Hs'. simpl in Hs, Hs'.
    repeat (apply elem_of_cons in Hs as [->|Hs]);
      try (by apply elem_of_nil in Hs);
      repeat (apply elem_of_cons in Hs' as [->|Hs']);
      try (by apply elem_of_nil in Hs');
      vm_compute; intros H; (reflexivity || discriminate H).
Defined.

Lemma skill_threshold_separates_witness :
  (_merge_skills [[skill "React" 1]; [skill "ReactJS" (1 # 2)]] 80
   = [Skill.mk "React" (Some "general") 2 (py_max 1 (1 # 2))])
  ∧ (_merge_skills [[skill "React" 1]; [skill "Redux" (1 # 2)]] 80
     ≡ₚ [Skill.mk "React" (Some "general") 1 1;
         Skill.mk "Redux" (Some "general") 1 (1 # 2)]).
Proof.
  split.
  - apply (skill_threshold_separates (skill "React" 1)
             (skill "ReactJS" (1 # 2)) 80); [lia|by vm_compute|].
    by vm_compute.
  - apply (skill_threshold_separates (skill "React" 1)
             (skill "Redux" (1 # 2)) 80); [lia|by vm_compute|].
    by vm_compute.
Defined.
